(** * Sten: LSB image steganography -- the codec of [sten.pyw]

  A shallow embedding of the capacity arithmetic, the embedding loop of
  [encode], the extraction loop of [decode] and the brute-force allocation
  search, together with the properties the design document states about
  them. *)

From Stdlib Require Import ZArith NArith Ascii String Lia.
From stdpp Require Import list.

Local Open Scope nat_scope.

(** ** Python values

  A Python [str] is a sequence of code points; a bit string is a [str]
  over the two characters '0' and '1', kept here as a list of booleans,
  most significant bit first. *)

Abbreviation pystr := (list N).
Abbreviation bitstr := (list bool).

(** A string literal as a Python [str]. *)
Definition str (s : string) : pystr := map N_of_ascii (list_ascii_of_string s).

Module Py.

(** Index normalisation of a slice bound: a negative bound counts from the
    end, and every bound is clamped to the string. *)
Definition idx (len : nat) (k : Z) : nat :=
  if (k <? 0)%Z then Z.to_nat (Z.of_nat len + k) else Z.to_nat k.

(** [s[:k]] *)
Definition upto {A} (s : list A) (k : Z) : list A := take (idx (length s) k) s.

(** [s[k:]] *)
Definition from {A} (s : list A) (k : Z) : list A := drop (idx (length s) k) s.

(** [s[i:j]] for non-negative [i], [j] *)
Definition slice {A} (s : list A) (i j : nat) : list A :=
  take (j - i) (drop i s).

(** [s.endswith(d)] *)
Definition endswith (s d : pystr) : bool :=
  (length d <=? length s) && bool_decide (drop (length s - length d) s = d).

(** [d in s] *)
Fixpoint contains (s d : pystr) : bool :=
  bool_decide (take (length d) s = d) ||
  match s with
  | [] => false
  | _ :: s' => contains s' d
  end.

(** [s.removesuffix(d)] *)
Definition removesuffix (s d : pystr) : pystr :=
  if endswith s d then take (length s - length d) s else s.

(** [format(n, 'b')]: the binary digits of [n], no leading zero. *)
Fixpoint pos_digits (p : positive) : bitstr :=
  match p with
  | xH => [true]
  | xO q => pos_digits q ++ [false]
  | xI q => pos_digits q ++ [true]
  end.

Definition bin (n : N) : bitstr :=
  match n with
  | N0 => [false]
  | Npos p => pos_digits p
  end.

(** [format(n, '0wb')]: zero-padded on the left to at least [w] digits. *)
Definition format_b (w : nat) (n : N) : bitstr :=
  replicate (w - length (bin n)) false ++ bin n.

(** [int(s, 2)] *)
Definition int2 (s : bitstr) : N :=
  fold_left (fun acc (b : bool) => (2 * acc + if b then 1 else 0)%N) s 0%N.

(** [string.printable]: digits, letters, punctuation, whitespace. *)
Definition printable : pystr :=
  map N.of_nat (seq 48 10 ++ seq 97 26 ++ seq 65 26
                ++ seq 33 15 ++ seq 58 7 ++ seq 91 6 ++ seq 123 4)
  ++ [32; 9; 10; 13; 11; 12]%N.

(** [itertools.product(xs, ys)] *)
Definition product {A C} (xs : list A) (ys : list C) : list (A * C) :=
  x ← xs; pair x <$> ys.

End Py.

(** ** Constants of the program *)

(** Modelled from the spec: the module [consts] is not part of the sources;
    [B] is the bit depth of one channel, "bit-depth 8". *)
Definition B : nat := 8.

(** Modelled from the spec: [consts.RGB], the number of colour bands of the
    brute-force search, "each of the 3 bands". *)
Definition RGB : nat := 3.

(** ** Program state *)

(** [Picture.imagedata]: one row per pixel, one channel value per band. *)
Abbreviation image := (list (list N)).

Record Picture := { pixel : nat; imagedata : image }.

(** The allocation [Globals.band_lsb] is a tuple of (band, lsb) pairs. *)
Abbreviation allocation := (list (nat * nat)).

Record Globals := { band_lsb : allocation; ch_limit : Z }.

Record Cipher := {
  name : string;
  encrypt : pystr → pystr;
  decrypt : pystr → pystr
}.

(** Answer of the "Save As" dialog, after the extension test. *)
Inductive save_as := NoFile | BadExtension | File.

(** What the handlers read from the widgets and dialogs: the message text,
    the cipher built from the selected name and key ([None] when the
    constructor raises), the chosen output file, whether writing that file
    succeeds, and the PRNG seed. *)
Record Entries := {
  text : pystr;
  cipher : option Cipher;
  output : save_as;
  writable : bool;
  seed : pystr
}.

Inductive dialog :=
| ErrNonAscii (char : N)
| WarnDelimiter
| ErrCipher
| ErrExtension
| ErrOverLimit (len : nat)
| ErrSave
| WarnNoHidden
| InfoEncoded
| InfoDecoded
| Fatal.

(** The picture and the control variables, the dialogs shown so far, and the
    files written by [encode] and [decode]. *)
Record World := {
  picture : Picture;
  globals : Globals;
  shown : list dialog;
  stego : option image;
  decoded : option pystr
}.

Definition show (d : dialog) (w : World) : World :=
  {| picture := picture w; globals := globals w; shown := shown w ++ [d];
     stego := stego w; decoded := decoded w |}.

Definition save_stego (a : image) (w : World) : World :=
  {| picture := picture w; globals := globals w; shown := shown w;
     stego := Some a; decoded := decoded w |}.

Definition save_text (m : pystr) (w : World) : World :=
  {| picture := picture w; globals := globals w; shown := shown w;
     stego := stego w; decoded := Some m |}.

(** [image[pix][band]]; [None] stands for [IndexError]. *)
Definition getitem (a : image) (pix band : nat) : option N :=
  row ← a !! pix; row !! band.

(** [image[pix][band] = x] *)
Definition setitem (a : image) (pix band : nat) (x : N) : option image :=
  row ← a !! pix; _ ← row !! band; Some (<[pix := <[band := x]> row]> a).

(** [image.astype(np.uint8)] *)
Definition astype_uint8 (a : image) : image :=
  (λ row : list N, (λ v, v mod 256)%N <$> row) <$> a.

(** Characters -> Bits: [''.join(format(ord(_), f'0{B}b') for _ in message)] *)
Definition to_bits (message : pystr) : bitstr :=
  c ← message; Py.format_b B c.

(** [val[:B - lsb] + (_ := bits[i:i + lsb]) + val[B - lsb + len(_):]] *)
Definition pack (val : bitstr) (lsb : nat) (chunk : bitstr) : bitstr :=
  Py.upto val (Z.of_nat B - Z.of_nat lsb)
  ++ chunk
  ++ Py.from val (Z.of_nat B - Z.of_nat lsb + Z.of_nat (length chunk)).

(** One pass of the body of the embedding loop (after the [break] test). *)
Definition embed_step (bits : bitstr) (a : image) (i pix band lsb : nat)
  : option image :=
  v ← getitem a pix band;
  setitem a pix band
    (Py.int2 (pack (Py.format_b B v) lsb (Py.slice bits i (i + lsb)))).

(** The embedding loop of [encode], from cursor [i] over the remaining
    (pixel, (band, lsb)) steps. *)
Fixpoint embed_loop (bits : bitstr) (a : image) (i : nat)
    (steps : list (nat * (nat * nat))) : option image :=
  match steps with
  | [] => Some a
  | (pix, (band, lsb)) :: rest =>
      if length bits <=? i then Some a
      else a' ← embed_step bits a i pix band lsb;
           embed_loop bits a' (i + lsb) rest
  end.

Definition embed (a : image) (alloc : allocation) (pixels : list nat)
    (bits : bitstr) : option image :=
  embed_loop bits a 0 (Py.product pixels alloc).

(** File -> Bits: [format(imagedata[pix][band], f'0{B}b')[-lsb:]] *)
Definition low_bits (v : N) (lsb : nat) : bitstr :=
  Py.from (Py.format_b B v) (- Z.of_nat lsb).

(** The brute-force candidates: [tuple(compress(enumerate(t), t))] for every
    [t] in [product(range(B + 1), repeat=RGB)]. *)
Fixpoint product_repeat (xs : list nat) (n : nat) : list (list nat) :=
  match n with
  | 0 => [[]]
  | S n' => x ← xs; cons x <$> product_repeat xs n'
  end.

Definition enumerate (t : list nat) : list (nat * nat) := imap pair t.

Definition compress {A} (data : list A) (selectors : list nat) : list A :=
  (filter (λ ds, ds.2 ≠ 0) (zip data selectors)).*1.

Definition possibilities : list allocation :=
  (λ t, compress (enumerate t) t) <$> product_repeat (seq 0 (B + 1)) RGB.

(** The keys of the [band_scl] dictionary of scales. *)
Definition band_scl : list nat := [0; 1; 2].

Inductive extraction := NoHiddenMessage | Hidden (message : pystr).

(** Outcome of the later revision of [decode], which also refuses a message
    found with a non-ASCII character in it. *)
Inductive decoding :=
| NotFound
| NotAscii (char : N)
| Found (message : pystr).

(** ** Sample data *)

(** A picture of 100 pixels in three bands. *)
Definition picture_100 : image := replicate 100 [200; 17; 255]%N.

(** A picture of four pixels in three bands. *)
Definition picture_4 : image :=
  [[200; 17; 255]; [0; 128; 64]; [77; 77; 77]; [255; 254; 1]]%N.

(** The same picture with "HI#" embedded on 3 bits of band 1 and 5 bits of
    band 2, pixels in their natural order. *)
Definition stego_100 : image :=
  Eval vm_compute in
    default picture_100
      (embed picture_100 [(1, 3); (2, 5)] (seq 0 100) (to_bits (str "HI#"))).

(** A stand-in for the shuffle of the PRNG: it reverses the pixels. *)
Definition shuffle_rev (seed : pystr) (pixels : list nat) : list nat :=
  reverse pixels.

(** A cipher that leaves the text as it is, and one of the same behaviour
    under the name of the Hill cipher. *)
Definition plain_cipher : Cipher :=
  {| name := "Plain"; encrypt := id; decrypt := id |}.

Definition hill_cipher : Cipher :=
  {| name := "Hill"; encrypt := id; decrypt := id |}.

(** The four-pixel picture opened, one bit of band 0 allocated: the limit
    [refresh] computes for it is [4 * 1 // 8 - 1 = -1]. *)
Definition world_4 : World :=
  {| picture := {| pixel := 4; imagedata := picture_4 |};
     globals := {| band_lsb := [(0, 1)]; ch_limit := -1 |};
     shown := []; stego := None; decoded := None |}.

Definition entries_plain : Entries :=
  {| text := str "HI"; cipher := Some plain_cipher; output := File;
     writable := true; seed := [] |}.

Definition entries_hill : Entries :=
  {| text := str "HI"; cipher := Some hill_cipher; output := File;
     writable := true; seed := [] |}.

Section Sten.

(** [consts.DELIMITER] and [crypto.HILL] are constants of modules outside
    the sources, as is the function [utils.nonascii] of the later revision;
    [shuffle seed pixels] is [random.seed(seed)] followed by
    [random.shuffle(pixels)]. *)
Variable DELIMITER : pystr.
Variable HILL : string.
Variable shuffle : pystr → list nat → list nat.
Variable nonascii : pystr → option N.

(** *** [open_] *)

Definition min_pix : nat := B + B * length DELIMITER.

(** [ch_capacity], the capacity shown among the image properties. *)
Definition ch_capacity (P : nat) : Z :=
  (Z.of_nat P * Z.of_nat (length band_scl) - Z.of_nat (length DELIMITER))%Z.

(** [open_] on a readable picture of a supported mode; [None] when the
    picture is refused for having too few pixels. *)
Definition open_ (P : nat) (data : image) : option (Picture * Z) :=
  if P <? min_pix then None
  else Some ({| pixel := P; imagedata := data |}, ch_capacity P).

(** *** [refresh] *)

(** The dictionary [band_lsb] built from the scales, and its repair when the
    event comes from scale number [k] and every scale stands at 0. *)
Definition scales_band_lsb (scales : list nat) (widget : option nat)
  : allocation :=
  let band_lsb := filter (λ bl, bl.2 ≠ 0) (imap pair scales) in
  match widget with
  | None => band_lsb
  | Some k => if bool_decide (length band_lsb ≠ 0) then band_lsb else [(k, 1)]
  end.

(** [((Picture.pixel * sum(band_lsb.values())) // B) - len(DELIMITER)] *)
Definition limit_of (P : nat) (alloc : allocation) : Z :=
  ((Z.of_nat P * Z.of_nat (sum_list (alloc.*2))) `div` Z.of_nat B
   - Z.of_nat (length DELIMITER))%Z.

Definition refresh (P : nat) (scales : list nat) (widget : option nat)
  : Globals :=
  let band_lsb := scales_band_lsb scales widget in
  {| band_lsb := band_lsb; ch_limit := limit_of P band_lsb |}.

(** *** [encode] *)

Definition pixels_of (P : nat) (seed : pystr) : list nat :=
  match seed with
  | [] => seq 0 P
  | _ => shuffle seed (seq 0 P)
  end.

Definition first_nonprintable (message : pystr) : option N :=
  head (filter (λ c, c ∉ Py.printable) message).

Definition encode (e : Entries) (w : World) : World :=
  match first_nonprintable (text e) with
  | Some char => show (ErrNonAscii char) w
  | None =>
    let w :=
      if Py.contains (text e) DELIMITER then show WarnDelimiter w else w in
    match cipher e with
    | None => show ErrCipher w
    | Some ci =>
      match output e with
      | NoFile => w
      | BadExtension => show ErrExtension w
      | File =>
        let message := encrypt ci (text e) in
        if String.eqb (name ci) HILL
           && (ch_limit (globals w) <? Z.of_nat (length message))%Z
        then show (ErrOverLimit (length message)) w
        else
          match embed (imagedata (picture w)) (band_lsb (globals w))
                  (pixels_of (pixel (picture w)) (seed e))
                  (to_bits (message ++ DELIMITER)) with
          | None => show Fatal w
          | Some a =>
              if writable e
              then show InfoEncoded (save_stego (astype_uint8 a) w)
              else show ErrSave w
          end
      end
    end
  end.

(** *** [decode] *)

(** The extraction loop, from the accumulated [bits] and [message] over the
    remaining steps. *)
Fixpoint extract_loop (a : image) (bits : bitstr) (message : pystr)
    (steps : list (nat * (nat * nat))) : option pystr :=
  match steps with
  | [] => Some message
  | (pix, (band, lsb)) :: rest =>
      if Py.endswith message DELIMITER then Some message
      else
        v ← getitem a pix band;
        let bits := bits ++ low_bits v lsb in
        if B <=? length bits
        then extract_loop a (Py.from bits (Z.of_nat B))
               (message ++ [Py.int2 (Py.upto bits (Z.of_nat B))]) rest
        else extract_loop a bits message rest
  end.

(** The loop followed by the test [DELIMITER not in message] and
    [message.removesuffix(DELIMITER)]. *)
Definition extract (a : image) (alloc : allocation) (pixels : list nat)
  : option extraction :=
  message ← extract_loop a [] [] (Py.product pixels alloc);
  Some (if Py.contains message DELIMITER
        then Hidden (Py.removesuffix message DELIMITER)
        else NoHiddenMessage).

Definition decode (e : Entries) (w : World) : World :=
  match cipher e with
  | None => show ErrCipher w
  | Some ci =>
    match output e with
    | NoFile => w
    | BadExtension => show ErrExtension w
    | File =>
      match extract (imagedata (picture w)) (band_lsb (globals w))
              (pixels_of (pixel (picture w)) (seed e)) with
      | None => show Fatal w
      | Some NoHiddenMessage => show WarnNoHidden w
      | Some (Hidden message) =>
          if writable e
          then show InfoDecoded (save_text (decrypt ci message) w)
          else show ErrSave w
      end
    end
  end.

(** *** Brute-force [decode]

    The outer [for ... else] of the later revision of [decode]: every
    candidate allocation is extracted from scratch, the first one whose
    message ends with the delimiter wins; the message found is then refused
    if [nonascii] finds a character in it. *)
Fixpoint search (a : image) (pixels : list nat) (candidates : list allocation)
  : option (option (allocation * pystr)) :=
  match candidates with
  | [] => Some None
  | i_lsb :: rest =>
      message ← extract_loop a [] [] (Py.product pixels i_lsb);
      if Py.endswith message DELIMITER then Some (Some (i_lsb, message))
      else search a pixels rest
  end.

Definition decode_search (brute : bool) (a : image) (alloc : allocation)
    (pixels : list nat) : option decoding :=
  found ← search a pixels (if brute then possibilities else [alloc]);
  Some (match found with
        | None => NotFound
        | Some (_, message) =>
            match nonascii message with
            | Some char => NotAscii char
            | None => Found (Py.removesuffix message DELIMITER)
            end
        end).

(** ** Vocabulary of the statements *)

(** A traversal is the list of (pixel, (band, lsb)) steps of
    [itertools.product(pixels, band_lsb)]; these are the channels it visits
    and the number of message bits it carries. *)
Definition positions (steps : list (nat * (nat * nat))) : list (nat * nat) :=
  (λ s, (s.1, s.2.1)) <$> steps.

Definition total_bits (steps : list (nat * (nat * nat))) : nat :=
  sum_list ((λ s, s.2.2) <$> steps).

(** The bits a whole traversal reads from a picture, File -> Bits step after
    step. *)
Definition read_bits (a : image) (steps : list (nat * (nat * nat))) : bitstr :=
  s ← steps;
  match getitem a s.1 s.2.1 with
  | Some v => low_bits v s.2.2
  | None => []
  end.

(** A picture of [C] channels per pixel whose channel values are bytes. *)
Definition wf_image (C : nat) (a : image) : Prop :=
  Forall (λ row, length row = C ∧ Forall (λ v, (v < 256)%N) row) a.

(** An allocation over the bands of such a picture: distinct bands, each
    with a bit count in [1, B]. *)
Definition wf_alloc (C : nat) (alloc : allocation) : Prop :=
  NoDup (alloc.*1) ∧ Forall (λ bl, bl.1 < C ∧ 1 ≤ bl.2 ≤ B) alloc.

Definition wf_steps (a : image) (steps : list (nat * (nat * nat))) : Prop :=
  Forall (λ s, is_Some (getitem a s.1 s.2.1) ∧ 1 ≤ s.2.2 ≤ B) steps.

Definition bytes (a : image) : Prop :=
  ∀ p b v, getitem a p b = Some v → (v < 256)%N.

(** The capacity formula of the design document, section 4.1: pixel count
    [P], [S] allocated bits per pixel, a delimiter of [D] characters. *)
Definition capacity_formula (P S D : Z) : Z := ((P * S) `div` 8 - D)%Z.

(** The running messages of a traversal that is never cut short: the
    message as it stands after each step, were the loop of [decode] to go on
    whatever the message ends with. *)
Fixpoint running (a : image) (bits : bitstr) (message : pystr)
    (steps : list (nat * (nat * nat))) : option (list pystr) :=
  match steps with
  | [] => Some []
  | (pix, (band, lsb)) :: rest =>
      v ← getitem a pix band;
      let bits := bits ++ low_bits v lsb in
      if B <=? length bits
      then let message := message ++ [Py.int2 (Py.upto bits (Z.of_nat B))] in
           cons message <$> running a (Py.from bits (Z.of_nat B)) message rest
      else cons message <$> running a bits message rest
  end.

End Sten.

(** ** The whole of [refresh], and opening a picture *)

(** The widget an event comes from: one of the scales, the cipher box, or
    anything else. *)
Inductive widget := Scale (k : nat) | Ciphers | Other.

(** What [refresh] reads from the widgets and may write back: the values of
    the scales, the selected cipher name, the key entry, the message box. *)
Record Gui := {
  g_scales : list nat;
  g_cipher : pystr;
  g_key : pystr;
  g_message : pystr
}.

(** The widgets after [refresh], the control variables it stores, the
    figure [ch_left] it displays, and whether it leaves the encode and the
    decode events bound. *)
Record Refreshed := {
  r_gui : Gui;
  r_globals : Globals;
  r_left : Z;
  r_encode : bool;
  r_decode : bool
}.

(** [refresh] for an event from [source] on a picture of [P] pixels.  A
    change of cipher empties the key; an empty key with a cipher selected
    unbinds both events; the scale that brought every scale to 0 is set
    back to 1; a message longer than the limit is cut by
    [message[:ch_limit]]. *)
Definition refresh_event (DELIMITER : pystr) (P : nat) (source : widget)
    (g : Gui) : Refreshed :=
  let key := match source with Ciphers => [] | _ => g_key g end in
  let locked :=
    bool_decide (key = []) && negb (bool_decide (g_cipher g = [])) in
  let control :=
    refresh DELIMITER P (g_scales g)
      (match source with Scale k => Some k | _ => None end) in
  let scales :=
    match source with
    | Scale k =>
        if bool_decide
             (length (filter (λ bl, bl.2 ≠ 0) (imap pair (g_scales g))) ≠ 0)
        then g_scales g
        else <[k := 1]> (g_scales g)
    | _ => g_scales g
    end in
  let text :=
    if (ch_limit control <? Z.of_nat (length (g_message g)))%Z
    then Py.upto (g_message g) (ch_limit control)
    else g_message g in
  {| r_gui := {| g_scales := scales; g_cipher := g_cipher g; g_key := key;
                 g_message := text |};
     r_globals := control;
     r_left := (ch_limit control - Z.of_nat (length text))%Z;
     r_encode := negb locked && negb (bool_decide (g_message g = []));
     r_decode := negb locked |}.

(** The world once a picture is set by [open_] and the control variables by
    the [refresh] bound to the same event. *)
Definition opened (pic : Picture) (control : Globals) (w : World) : World :=
  {| picture := pic; globals := control; shown := shown w;
     stego := stego w; decoded := decoded w |}.

(** The handlers of the open event in turn: [open_], then [refresh]; a
    refused picture stops the event and changes nothing. *)
Definition open_event (DELIMITER : pystr) (P : nat) (data : image)
    (g : Gui) (w : World) : World * Gui :=
  match open_ DELIMITER P data with
  | None => (w, g)
  | Some (pic, _) =>
      let r := refresh_event DELIMITER P Other g in
      (opened pic (r_globals r) w, r_gui r)
  end.

(** The geometry of the main window on a screen of the given size: width,
    height, and the two offsets of [wm_geometry]. *)
Definition window_geometry (SCREEN_W SCREEN_H : Z) : Z * Z * Z * Z :=
  let WINDOW_W := 1000%Z in
  let WINDOW_H := 550%Z in
  let WINDOW_W := if (SCREEN_W <? WINDOW_W)%Z then SCREEN_W else WINDOW_W in
  let WINDOW_H := if (SCREEN_H <? WINDOW_H)%Z then SCREEN_H else WINDOW_H in
  let CENTER_X := (SCREEN_W `div` 2 - WINDOW_W `div` 2)%Z in
  let CENTER_Y := (SCREEN_H `div` 2 - WINDOW_H `div` 2)%Z in
  (WINDOW_W, WINDOW_H, CENTER_X, CENTER_Y).

(** ** The window title and the version check *)

(** [s.rstrip(c)] for a single character [c]: the trailing run of [c] is
    removed. *)
Fixpoint rstrip (c : N) (s : pystr) : pystr :=
  match s with
  | [] => []
  | x :: r =>
      match rstrip c r with
      | [] => if (x =? c)%N then [] else [x]
      | r' => x :: r'
      end
  end.

(** [s.rpartition(c)] for a single character [c]: the text before the last
    [c], the separator, and the text after it; two empty strings and [s]
    when [c] does not occur. *)
Fixpoint rpartition (c : N) (s : pystr) : pystr * pystr * pystr :=
  match s with
  | [] => ([], [], [])
  | x :: r =>
      let '(h, sep, t) := rpartition c r in
      match sep with
      | [] => if (x =? c)%N then ([], [c], t) else ([], [], x :: t)
      | _ => (x :: h, sep, t)
      end
  end.

(** [root.wm_title(root.wm_title().rstrip('*') + '*')] of [open_], and
    [root.wm_title(root.wm_title().rstrip('*'))] of [encode] and [decode]
    once the file is saved. *)
Definition title_opened (title : pystr) : pystr :=
  rstrip 42%N title ++ str "*".

Definition title_saved (title : pystr) : pystr := rstrip 42%N title.

(** [latest] of [check_for_updates], from the path of the answered URL:
    [path.rstrip('/').rpartition('/')[-1]]. *)
Definition latest (path : pystr) : pystr :=
  (rpartition 47%N (rstrip 47%N path)).2.

(** ** More sample data *)

(** A cipher that moves every character one code point up. *)
Definition shift_cipher : Cipher :=
  {| name := "Shift"; encrypt := map N.succ; decrypt := map N.pred |}.

(** The picture of 100 pixels opened, one bit of band 0 allocated: the
    limit is [100 * 1 // 8 - 1 = 11]. *)
Definition world_100 : World :=
  {| picture := {| pixel := 100; imagedata := picture_100 |};
     globals := {| band_lsb := [(0, 1)]; ch_limit := 11 |};
     shown := []; stego := None; decoded := None |}.

(** A text without ["#"] whose ciphertext under [shift_cipher] is
    ["I#J"]. *)
Definition entries_shift : Entries :=
  {| text := [72; 34; 73]%N; cipher := Some shift_cipher; output := File;
     writable := true; seed := [] |}.

(** The four-pixel picture with "HI#" embedded on 3 bits of band 0 and the
    8 bits of band 2, pixels in their natural order. *)
Definition stego_4 : image :=
  Eval vm_compute in
    default picture_4
      (embed picture_4 [(0, 3); (2, 8)] (seq 0 4) (to_bits (str "HI#"))).

(** Every scale at 0, as after dragging the last one down. *)
Definition gui_zero : Gui :=
  {| g_scales := [0; 0; 0]; g_cipher := []; g_key := [];
     g_message := str "HELLO" |}.

(** One bit on band 0 and a message of 19 characters. *)
Definition gui_long : Gui :=
  {| g_scales := [1; 0; 0]; g_cipher := []; g_key := [];
     g_message := str "HELLO, WORLD! HELLO" |}.

(** ** Facts about the Python helpers *)

Section PyFacts.

Import Py.

Lemma int2_snoc s b : int2 (s ++ [b]) = (2 * int2 s + if b then 1 else 0)%N.
Proof. unfold int2. by rewrite fold_left_app. Qed.

Lemma int2_app a b :
  int2 (a ++ b) = (int2 a * 2 ^ N.of_nat (length b) + int2 b)%N.
Proof.
  induction b as [|x b IH] using rev_ind.
  - rewrite app_nil_r. simpl. unfold int2 at 3. simpl. lia.
  - rewrite app_assoc, !int2_snoc, IH, length_app. simpl.
    replace (N.of_nat (length b + 1)) with (N.succ (N.of_nat (length b)))
      by lia.
    rewrite N.pow_succ_r'. lia.
Qed.

Lemma int2_lt s : (int2 s < 2 ^ N.of_nat (length s))%N.
Proof.
  induction s as [|x s IH] using rev_ind.
  - unfold int2. simpl. lia.
  - rewrite int2_snoc, length_app. simpl.
    replace (N.of_nat (length s + 1)) with (N.succ (N.of_nat (length s)))
      by lia.
    rewrite N.pow_succ_r'. destruct x; lia.
Qed.

Lemma int2_cons x s :
  int2 (x :: s) = ((if x then 1 else 0) * 2 ^ N.of_nat (length s) + int2 s)%N.
Proof.
  change (x :: s) with ([x] ++ s). rewrite int2_app.
  unfold int2 at 1. simpl. destruct x; lia.
Qed.

Lemma int2_inj a : ∀ b, length a = length b → int2 a = int2 b → a = b.
Proof.
  induction a as [|x a IH]; intros [|y b] Hl He; simplify_eq/=; [done|].
  rewrite !int2_cons in He.
  pose proof (int2_lt a) as Ha. pose proof (int2_lt b) as Hb.
  rewrite Hl in *.
  assert (x = y) as -> by (destruct x, y; try done; lia).
  f_equal. apply IH; [done | lia].
Qed.

Lemma int2_replicate_false k : int2 (replicate k false) = 0%N.
Proof.
  induction k as [|k IH]; [done|].
  simpl. rewrite int2_cons, IH. lia.
Qed.

Lemma int2_pos_digits p : int2 (pos_digits p) = Npos p.
Proof. induction p as [p IH|p IH|]; simpl; rewrite ?int2_snoc, ?IH; done. Qed.

Lemma int2_bin n : int2 (bin n) = n.
Proof. destruct n; [done | apply int2_pos_digits]. Qed.

(** [int(format(n, '0wb'), 2) == n] *)
Lemma int2_format_b w n : int2 (format_b w n) = n.
Proof.
  unfold format_b. rewrite int2_app, int2_replicate_false, int2_bin. lia.
Qed.

Lemma length_pos_digits p w :
  (Npos p < 2 ^ N.of_nat w)%N → length (pos_digits p) ≤ w.
Proof.
  revert w. induction p as [p IH|p IH|]; intros w Hw; simpl.
  - destruct w as [|w]; [simpl in Hw; lia|].
    rewrite length_app. simpl. specialize (IH w).
    replace (N.of_nat (S w)) with (N.succ (N.of_nat w)) in Hw by lia.
    rewrite N.pow_succ_r' in Hw. lia.
  - destruct w as [|w]; [simpl in Hw; lia|].
    rewrite length_app. simpl. specialize (IH w).
    replace (N.of_nat (S w)) with (N.succ (N.of_nat w)) in Hw by lia.
    rewrite N.pow_succ_r' in Hw. lia.
  - destruct w as [|w]; [simpl in Hw; lia | lia].
Qed.

(** A value below [2^w] is formatted on exactly [w] digits ([w >= 1]). *)
Lemma length_format_b w n :
  0 < w → (n < 2 ^ N.of_nat w)%N → length (format_b w n) = w.
Proof.
  intros Hw Hn. unfold format_b. rewrite length_app, length_replicate.
  assert (length (bin n) ≤ w); [|lia].
  destruct n as [|p]; simpl; [lia | by apply length_pos_digits].
Qed.

(** [format(int(s, 2), '0wb') == s] for a string of [w] digits. *)
Lemma format_b_int2 s : 0 < length s → format_b (length s) (int2 s) = s.
Proof.
  intros Hs. apply int2_inj.
  - apply length_format_b; [done | apply int2_lt].
  - apply int2_format_b.
Qed.

End PyFacts.

(** ** Slices at the bounds the loops use *)

Lemma idx_nonneg len k : (0 ≤ k)%Z → Py.idx len k = Z.to_nat k.
Proof. intros Hk. unfold Py.idx. destruct (Z.ltb_spec k 0); [lia | done]. Qed.

Lemma upto_nonneg {A} (s : list A) k :
  (0 ≤ k)%Z → Py.upto s k = take (Z.to_nat k) s.
Proof. intros Hk. unfold Py.upto. by rewrite idx_nonneg. Qed.

Lemma from_nonneg {A} (s : list A) k :
  (0 ≤ k)%Z → Py.from s k = drop (Z.to_nat k) s.
Proof. intros Hk. unfold Py.from. by rewrite idx_nonneg. Qed.

(** [s[:-1]] *)
Lemma upto_minus_1 {A} (s : list A) : Py.upto s (-1) = take (length s - 1) s.
Proof. unfold Py.upto, Py.idx. simpl. f_equal. lia. Qed.

Lemma length_slice {A} (s : list A) i j :
  length (Py.slice s i j) = (j - i) `min` (length s - i).
Proof. unfold Py.slice. by rewrite length_take, length_drop. Qed.

Lemma length_format_byte v : (v < 256)%N → length (Py.format_b B v) = B.
Proof. intros Hv. apply length_format_b; [unfold B; lia | done]. Qed.

Lemma int2_byte s : length s = B → (Py.int2 s < 256)%N.
Proof. intros Hs. pose proof (int2_lt s) as H. by rewrite Hs in H. Qed.

Lemma format_byte_int2 s : length s = B → Py.format_b B (Py.int2 s) = s.
Proof.
  intros Hs. rewrite <- Hs. apply format_b_int2. rewrite Hs. unfold B. lia.
Qed.

(** The [lsb] low-order digits of a byte, for [1 <= lsb <= B]. *)
Lemma low_bits_drop v lsb :
  (v < 256)%N → 1 ≤ lsb ≤ B → low_bits v lsb = drop (B - lsb) (Py.format_b B v).
Proof.
  intros Hv Hl. unfold low_bits, Py.from, Py.idx.
  rewrite length_format_byte by done.
  destruct (Z.ltb_spec (- Z.of_nat lsb) 0); [f_equal; lia | lia].
Qed.

Lemma length_low_bits v lsb :
  (v < 256)%N → 1 ≤ lsb ≤ B → length (low_bits v lsb) = lsb.
Proof.
  intros Hv Hl. rewrite low_bits_drop, length_drop, length_format_byte by done.
  lia.
Qed.

(** The packed string, for a byte and a chunk no longer than [lsb <= B]. *)
Lemma pack_take_drop val lsb chunk :
  lsb ≤ B →
  pack val lsb chunk
  = take (B - lsb) val ++ chunk ++ drop (B - lsb + length chunk) val.
Proof.
  intros Hl. unfold pack. rewrite upto_nonneg, from_nonneg by lia.
  do 3 f_equal; lia.
Qed.

Lemma length_pack val lsb chunk :
  length val = B → lsb ≤ B → length chunk ≤ lsb →
  length (pack val lsb chunk) = B.
Proof.
  intros Hv Hl Hc. rewrite pack_take_drop by done.
  rewrite !length_app, length_take, length_drop. lia.
Qed.

(** Reading back [lsb] bits of a packed byte gives the chunk, followed by
    the old low-order bits the chunk did not reach. *)
Lemma low_bits_pack v lsb chunk :
  (v < 256)%N → 1 ≤ lsb ≤ B → length chunk ≤ lsb →
  low_bits (Py.int2 (pack (Py.format_b B v) lsb chunk)) lsb
  = chunk ++ drop (length chunk) (low_bits v lsb).
Proof.
  intros Hv Hl Hc.
  assert (length (pack (Py.format_b B v) lsb chunk) = B) as Hp
    by (apply length_pack; [by apply length_format_byte | lia | done]).
  rewrite low_bits_drop by (by apply int2_byte || done).
  rewrite format_byte_int2 by done.
  rewrite (low_bits_drop v) by done.
  rewrite pack_take_drop by lia.
  rewrite drop_app_length', drop_drop; [done|].
  rewrite length_take, length_format_byte by done. lia.
Qed.

(** ** The picture as an array *)

Lemma getitem_setitem a p b x a' :
  setitem a p b x = Some a' →
  ∀ p' b', getitem a' p' b'
           = if decide (p' = p ∧ b' = b) then Some x else getitem a p' b'.
Proof.
  unfold setitem, getitem. intros Hs p' b'.
  destruct (a !! p) as [row|] eqn:Hrow; simplify_eq/=.
  destruct (row !! b) as [old|] eqn:Hold; simplify_eq/=.
  apply lookup_lt_Some in Hrow as Hp. apply lookup_lt_Some in Hold as Hb.
  destruct (decide (p' = p)) as [->|Hne].
  - rewrite list_lookup_insert_eq by done. simpl.
    destruct (decide (b' = b)) as [->|Hnb].
    + rewrite list_lookup_insert_eq by done. by rewrite decide_True.
    + rewrite list_lookup_insert_ne by done. rewrite Hrow. simpl.
      rewrite decide_False; [done | tauto].
  - rewrite list_lookup_insert_ne by done.
    rewrite decide_False; [done | tauto].
Qed.

Lemma setitem_is_Some a p b x :
  is_Some (getitem a p b) → is_Some (setitem a p b x).
Proof.
  unfold getitem, setitem. intros [v Hv].
  destruct (a !! p) as [row|]; simplify_eq/=. rewrite Hv. simpl. eauto.
Qed.

(** What one embedding step does to the array. *)
Lemma embed_step_Some bits a i p b lsb a' :
  embed_step bits a i p b lsb = Some a' →
  ∃ v, getitem a p b = Some v ∧
    ∀ p' b', getitem a' p' b'
      = if decide (p' = p ∧ b' = b)
        then Some (Py.int2 (pack (Py.format_b B v) lsb
                              (Py.slice bits i (i + lsb))))
        else getitem a p' b'.
Proof.
  unfold embed_step. intros H.
  destruct (getitem a p b) as [v|] eqn:Hv; simplify_eq/=.
  exists v. split; [done|]. by apply getitem_setitem.
Qed.

Lemma embed_step_is_Some bits a i p b lsb :
  is_Some (getitem a p b) → is_Some (embed_step bits a i p b lsb).
Proof.
  intros [v Hv]. unfold embed_step. rewrite Hv. simpl.
  apply setitem_is_Some. eauto.
Qed.


(** ** The embedding loop *)

Lemma embed_loop_frame bits steps :
  ∀ a i a', embed_loop bits a i steps = Some a' →
  ∀ p b, (p, b) ∉ positions steps → getitem a' p b = getitem a p b.
Proof.
  induction steps as [|[pix [band lsb]] rest IH]; intros a i a' He p b Hn;
    simpl in He.
  - by simplify_eq.
  - destruct (length bits <=? i); [by simplify_eq|].
    destruct (embed_step bits a i pix band lsb) as [a1|] eqn:Hs; simplify_eq/=.
    apply embed_step_Some in Hs as (v & Hv & Hget).
    apply not_elem_of_cons in Hn as [Hne Hn].
    rewrite (IH _ _ _ He) by done.
    rewrite Hget, decide_False; [done|]. intros [-> ->]. done.
Qed.

Lemma embed_step_dom bits a i pix band lsb a1 :
  embed_step bits a i pix band lsb = Some a1 →
  ∀ p b, is_Some (getitem a1 p b) ↔ is_Some (getitem a p b).
Proof.
  intros Hs p b. apply embed_step_Some in Hs as (v & Hv & Hget).
  rewrite Hget. case_decide as Hd; [|done].
  destruct Hd as [-> ->]. rewrite Hv. split; eauto.
Qed.

Lemma wf_steps_dom a a' steps :
  (∀ p b, is_Some (getitem a' p b) ↔ is_Some (getitem a p b)) →
  wf_steps a steps → wf_steps a' steps.
Proof.
  intros Hd Hw. eapply Forall_impl; [exact Hw|].
  intros s [Hs Hl]. split; [by apply Hd | done].
Qed.

Lemma embed_step_bytes bits a i pix band lsb a1 :
  bytes a → lsb ≤ B →
  embed_step bits a i pix band lsb = Some a1 → bytes a1.
Proof.
  intros Hb Hl Hs p b w. apply embed_step_Some in Hs as (v & Hv & Hget).
  rewrite Hget. case_decide; [|by apply Hb].
  intros [= <-]. apply int2_byte, length_pack; [|done|].
  - apply length_format_byte. by eapply Hb.
  - rewrite length_slice. lia.
Qed.

Lemma embed_loop_dom bits steps :
  ∀ a i a', embed_loop bits a i steps = Some a' →
  ∀ p b, is_Some (getitem a' p b) ↔ is_Some (getitem a p b).
Proof.
  induction steps as [|[pix [band lsb]] rest IH]; intros a i a' He p b;
    simpl in He.
  - by simplify_eq.
  - destruct (length bits <=? i); [by simplify_eq|].
    destruct (embed_step bits a i pix band lsb) as [a1|] eqn:Hs; simplify_eq/=.
    rewrite (IH _ _ _ He). by eapply embed_step_dom.
Qed.

Lemma embed_loop_bytes bits steps :
  ∀ a i a', bytes a → Forall (λ s, s.2.2 ≤ B) steps →
  embed_loop bits a i steps = Some a' → bytes a'.
Proof.
  induction steps as [|[pix [band lsb]] rest IH]; intros a i a' Hb Hl He;
    simpl in He.
  - by simplify_eq.
  - destruct (length bits <=? i); [by simplify_eq|].
    destruct (embed_step bits a i pix band lsb) as [a1|] eqn:Hs; simplify_eq/=.
    apply Forall_cons in Hl as [Hl1 Hl]. simpl in Hl1.
    eapply IH; [|done..]. by eapply embed_step_bytes.
Qed.

(** The loop never raises on a traversal that stays inside the array. *)
Lemma embed_loop_is_Some bits steps :
  ∀ a i, wf_steps a steps → is_Some (embed_loop bits a i steps).
Proof.
  induction steps as [|[pix [band lsb]] rest IH]; intros a i Hw; simpl.
  - eauto.
  - destruct (length bits <=? i); [eauto|].
    apply Forall_cons in Hw as [[Hs _] Hw]. simpl in Hs.
    destruct (embed_step_is_Some bits a i pix band lsb Hs) as [a1 Ha1].
    rewrite Ha1. simpl. apply IH.
    eapply wf_steps_dom; [|done]. by eapply embed_step_dom.
Qed.

Lemma read_bits_cons a pix band lsb rest :
  read_bits a ((pix, (band, lsb)) :: rest)
  = match getitem a pix band with
    | Some v => low_bits v lsb
    | None => []
    end ++ read_bits a rest.
Proof. done. Qed.

Lemma total_bits_cons pix band lsb rest :
  total_bits ((pix, (band, lsb)) :: rest) = lsb + total_bits rest.
Proof. done. Qed.

(** Read back along the same traversal, the picture the loop returns starts
    with the message bits from the cursor on, as many as the traversal
    carries. *)
Lemma embed_loop_read bits steps :
  ∀ a i a', wf_steps a steps → NoDup (positions steps) → bytes a →
  embed_loop bits a i steps = Some a' →
  ∃ g, read_bits a' steps = take (total_bits steps) (drop i bits) ++ g.
Proof.
  induction steps as [|[pix [band lsb]] rest IH]; intros a i a' Hw Hnd Hb He.
  - by exists [].
  - cbn [embed_loop] in He.
    destruct (Nat.leb_spec (length bits) i) as [Hi|Hi].
    { simplify_eq. exists (read_bits a' ((pix, (band, lsb)) :: rest)).
      by rewrite drop_ge, take_nil by done. }
    destruct (embed_step bits a i pix band lsb) as [a1|] eqn:Hs; [|done].
    cbn [mbind option_bind] in He.
    apply Forall_cons in Hw as [[_ Hl] Hw]. cbn [fst snd] in Hl.
    change (positions ((pix, (band, lsb)) :: rest))
      with ((pix, band) :: positions rest) in Hnd.
    apply NoDup_cons in Hnd as [Hn Hnd].
    assert (bytes a1) as Hb1
      by (apply (embed_step_bytes bits a i pix band lsb a1 Hb); [lia | done]).
    destruct (IH a1 (i + lsb) a') as [g' Hg']; [|done..|].
    { eapply wf_steps_dom; [|done]. by eapply embed_step_dom. }
    apply embed_step_Some in Hs as (v & Hv & Hget).
    rewrite read_bits_cons, total_bits_cons, Hg'.
    rewrite (embed_loop_frame _ _ _ _ _ He) by done.
    rewrite Hget, decide_True by done.
    rewrite low_bits_pack; [|by eapply Hb|done|rewrite length_slice; lia].
    rewrite <- take_take_drop, drop_drop.
    unfold Py.slice. replace (i + lsb - i) with lsb by lia.
    destruct (decide (i + lsb ≤ length bits)) as [Hle|Hgt].
    + exists g'. rewrite (drop_ge (low_bits v lsb)).
      * by rewrite app_nil_r, <- app_assoc.
      * rewrite length_low_bits by (by eapply Hb || done).
        rewrite length_take, length_drop. lia.
    + exists (drop (length (take lsb (drop i bits))) (low_bits v lsb) ++ g').
      rewrite (drop_ge bits (i + lsb)) by lia.
      rewrite take_nil. simpl. by rewrite <- !app_assoc.
Qed.

(** ** Suffixes and occurrences *)

Lemma endswith_spec s d : Py.endswith s d = true ↔ ∃ l, s = l ++ d.
Proof.
  unfold Py.endswith. rewrite andb_true_iff, Nat.leb_le, bool_decide_eq_true.
  split.
  - intros [Hl Hd]. exists (take (length s - length d) s).
    rewrite <- (take_drop (length s - length d) s) at 1. by rewrite Hd.
  - intros [l ->]. rewrite length_app. split; [lia|].
    apply drop_app_length'. lia.
Qed.

Lemma contains_spec s d : Py.contains s d = true ↔ ∃ l1 l2, s = l1 ++ d ++ l2.
Proof.
  induction s as [|x s IH]; cbn [Py.contains];
    rewrite orb_true_iff, bool_decide_eq_true.
  - rewrite take_nil. split.
    + intros [<-|?]; [by exists [], [] | done].
    + intros (l1 & l2 & H). left. symmetry in H.
      apply app_eq_nil in H as [_ H]. by apply app_eq_nil in H as [-> _].
  - rewrite IH. split.
    + intros [Hd|(l1 & l2 & ->)].
      * exists [], (drop (length d) (x :: s)).
        rewrite app_nil_l. rewrite <- Hd at 1. by rewrite take_drop.
      * by exists (x :: l1), l2.
    + intros (l1 & l2 & H). destruct l1 as [|y l1].
      * left. rewrite H. simpl. by rewrite take_app_length.
      * right. simplify_eq/=. eauto.
Qed.

Lemma endswith_contains s d : Py.endswith s d = true → Py.contains s d = true.
Proof.
  rewrite endswith_spec, contains_spec. intros [l ->].
  exists l, []. by rewrite app_nil_r.
Qed.

(** A string without the delimiter has no prefix that ends with it. *)
Lemma contains_false_prefix s d k :
  Py.contains s d = false → Py.endswith (take k s) d = false.
Proof.
  intros Hc. apply not_true_is_false. rewrite endswith_spec. intros [l Hl].
  apply not_true_iff_false in Hc. apply Hc, contains_spec.
  exists l, (drop k s). by rewrite app_assoc, <- Hl, take_drop.
Qed.

(** An occurrence of the delimiter ends some prefix. *)
Lemma contains_prefix s d :
  Py.contains s d = true →
  ∃ k, k ≤ length s ∧ Py.endswith (take k s) d = true.
Proof.
  rewrite contains_spec. intros (l1 & l2 & ->).
  exists (length (l1 ++ d)). split.
  - rewrite !length_app. lia.
  - rewrite app_assoc, take_app_length. apply endswith_spec. eauto.
Qed.

Lemma removesuffix_app s d : Py.removesuffix (s ++ d) d = s.
Proof.
  unfold Py.removesuffix.
  replace (Py.endswith (s ++ d) d) with true
    by (symmetry; apply endswith_spec; eauto).
  rewrite length_app.
  replace (length s + length d - length d) with (length s) by lia.
  apply take_app_length.
Qed.

Lemma removesuffix_endswith s d :
  Py.endswith s d = true → Py.removesuffix s d ++ d = s.
Proof.
  intros H. apply endswith_spec in H as [l ->]. by rewrite removesuffix_app.
Qed.

(** ** The extraction loop *)

Lemma length_to_bits cs :
  Forall (λ c, (c < 256)%N) cs → length (to_bits cs) = B * length cs.
Proof.
  unfold to_bits. induction 1 as [|c cs Hc _ IH]; [done|].
  rewrite bind_cons, length_app, IH, length_format_byte by done. simpl. lia.
Qed.

Lemma to_bits_cons c cs : to_bits (c :: cs) = Py.format_b B c ++ to_bits cs.
Proof. done. Qed.

(** If the traversal reads the bits of the characters [cs] (then anything),
    and the message first ends with the delimiter once all of [cs] is
    appended, the loop returns the message with all of [cs] appended. *)
Lemma extract_loop_stream DELIMITER steps :
  ∀ a bits msg cs g,
  wf_steps a steps → bytes a → length bits < B →
  Forall (λ c, (c < 256)%N) cs →
  bits ++ read_bits a steps = to_bits cs ++ g →
  (∀ k, k < length cs → Py.endswith (msg ++ take k cs) DELIMITER = false) →
  Py.endswith (msg ++ cs) DELIMITER = true →
  extract_loop DELIMITER a bits msg steps = Some (msg ++ cs).
Proof.
  induction steps as [|[pix [band lsb]] rest IH];
    intros a bits msg cs g Hw Hb Hlen Hcs Hread Hfirst Hlast.
  - destruct cs as [|c cs]; [by rewrite app_nil_r|].
    apply (f_equal length) in Hread.
    rewrite app_nil_r, length_app, length_to_bits in Hread by done.
    change (length (c :: cs)) with (S (length cs)) in Hread. lia.
  - cbn [extract_loop]. destruct cs as [|c cs].
    { rewrite app_nil_r in *. by rewrite Hlast. }
    pose proof (Hfirst 0 ltac:(cbn [length]; lia)) as H0.
    rewrite take_0, app_nil_r in H0. rewrite H0.
    apply Forall_cons in Hw as [[[v Hv] Hl] Hw]. cbn [fst snd] in Hv, Hl.
    rewrite Hv. cbn [mbind option_bind].
    rewrite read_bits_cons, Hv, app_assoc in Hread.
    pose proof (length_low_bits v lsb (Hb _ _ _ Hv) Hl) as Hlow.
    destruct (Nat.leb_spec B (length (bits ++ low_bits v lsb))) as [Hge|Hlt].
    + apply Forall_cons in Hcs as [Hc Hcs].
      rewrite to_bits_cons, <- (app_assoc (Py.format_b B c)) in Hread.
      rewrite upto_nonneg, from_nonneg, Nat2Z.id by lia.
      assert (take B (bits ++ low_bits v lsb) = Py.format_b B c) as Htake.
      { apply (f_equal (take B)) in Hread.
        rewrite take_app_le in Hread by done.
        rewrite (take_app_length' (Py.format_b B c)) in Hread
          by (symmetry; by apply length_format_byte).
        done. }
      rewrite Htake, int2_format_b.
      replace (msg ++ c :: cs) with ((msg ++ [c]) ++ cs)
        by (by rewrite <- app_assoc).
      apply (IH _ _ _ _ g); [done..| | done | | |].
      * rewrite length_drop, length_app in *. lia.
      * apply (f_equal (drop B)) in Hread.
        rewrite drop_app_le in Hread by done.
        rewrite (drop_app_length' (Py.format_b B c)) in Hread
          by (symmetry; by apply length_format_byte).
        done.
      * intros k Hk. rewrite <- app_assoc. apply (Hfirst (S k)).
        cbn [length]. lia.
      * by rewrite <- app_assoc.
    + apply (IH _ _ _ _ g); done.
Qed.

(** ** Traversals of a well-formed picture *)

Lemma product_cons {A C} (x : A) (xs : list A) (ys : list C) :
  Py.product (x :: xs) ys = (pair x <$> ys) ++ Py.product xs ys.
Proof. done. Qed.

Lemma elem_of_product {A C} (xs : list A) (ys : list C) x y :
  (x, y) ∈ Py.product xs ys ↔ x ∈ xs ∧ y ∈ ys.
Proof.
  unfold Py.product. rewrite list_elem_of_bind. split.
  - intros (x' & Hin & Hx). apply list_elem_of_fmap in Hin as (y' & ? & ?).
    by simplify_eq.
  - intros [Hx Hy]. exists x. split; [|done].
    apply list_elem_of_fmap. eauto.
Qed.

Lemma NoDup_product {A C} (xs : list A) (ys : list C) :
  NoDup xs → NoDup ys → NoDup (Py.product xs ys).
Proof.
  intros Hxs Hys. induction Hxs as [|x xs Hx _ IH]; [constructor|].
  rewrite product_cons. apply NoDup_app. split_and!; [|  |done].
  - apply NoDup_fmap_2; [|done]. by intros ?? [=].
  - intros [x' y'] Hin Hin'.
    apply list_elem_of_fmap in Hin as (? & ? & _). simplify_eq.
    by apply elem_of_product in Hin' as [? _].
Qed.

Lemma positions_product pixels (alloc : allocation) :
  positions (Py.product pixels alloc) = Py.product pixels (alloc.*1).
Proof.
  induction pixels as [|pix pixels IH]; [done|].
  rewrite !product_cons. unfold positions in *. rewrite fmap_app, IH.
  f_equal. by rewrite <- !list_fmap_compose.
Qed.

Lemma total_bits_product pixels (alloc : allocation) :
  total_bits (Py.product pixels alloc) = length pixels * sum_list (alloc.*2).
Proof.
  induction pixels as [|pix pixels IH]; [done|].
  rewrite product_cons. unfold total_bits in *.
  rewrite fmap_app, sum_list_with_app, IH, <- list_fmap_compose.
  cbn [length]. unfold compose. simpl. reflexivity.
Qed.

Lemma wf_image_getitem C a p b :
  wf_image C a → p < length a → b < C → is_Some (getitem a p b).
Proof.
  intros Hw Hp Hb. destruct (lookup_lt_is_Some_2 a p Hp) as [row Hrow].
  unfold getitem. rewrite Hrow. simpl. apply lookup_lt_is_Some.
  destruct (Forall_lookup_1 _ _ _ _ Hw Hrow) as [-> _]. done.
Qed.

Lemma wf_image_bytes C a : wf_image C a → bytes a.
Proof.
  intros Hw p b v. unfold getitem.
  destruct (a !! p) as [row|] eqn:Hrow; [|done]. simpl. intros Hv.
  destruct (Forall_lookup_1 _ _ _ _ Hw Hrow) as [_ Hb].
  by apply (Forall_lookup_1 _ _ _ _ Hb Hv).
Qed.

Lemma wf_steps_product C a alloc pixels :
  wf_image C a → wf_alloc C alloc → Forall (λ p, p < length a) pixels →
  wf_steps a (Py.product pixels alloc).
Proof.
  intros Hw [_ Ha] Hp. apply Forall_forall. intros [pix [band lsb]] Hin.
  apply elem_of_product in Hin as [Hpix Hbl].
  destruct (proj1 (Forall_forall _ _) Ha _ Hbl) as [Hband Hlsb].
  pose proof (proj1 (Forall_forall _ _) Hp _ Hpix) as Hlt.
  split; [|done]. by apply (wf_image_getitem C).
Qed.

Lemma length_read_bits a steps :
  wf_steps a steps → bytes a → length (read_bits a steps) = total_bits steps.
Proof.
  intros Hw Hb. induction steps as [|[pix [band lsb]] rest IH]; [done|].
  apply Forall_cons in Hw as [[[v Hv] Hl] Hw]. cbn [fst snd] in Hv, Hl.
  rewrite read_bits_cons, total_bits_cons, length_app, Hv, IH by done.
  rewrite length_low_bits; [done | by eapply Hb | done].
Qed.

Lemma fmap_fixed {A} (f : A → A) (l : list A) :
  (∀ i x, l !! i = Some x → f x = x) → f <$> l = l.
Proof.
  intros Hf. apply list_eq. intros i. rewrite list_lookup_fmap.
  destruct (l !! i) as [x|] eqn:Hx; [|done]. simpl. f_equal. eauto.
Qed.

(** Storing bytes as [uint8] changes nothing. *)
Lemma bytes_astype a : bytes a → astype_uint8 a = a.
Proof.
  intros Hb. unfold astype_uint8. apply fmap_fixed. intros p row Hrow.
  apply fmap_fixed. intros b v Hv. apply N.mod_small, (Hb p b).
  unfold getitem. by rewrite Hrow.
Qed.

Lemma printable_byte c : c ∈ Py.printable → (c < 256)%N.
Proof.
  revert c. apply Forall_forall.
  apply (bool_decide_unpack _). by vm_compute.
Qed.

(** The pixel order is a permutation of [range(P)] whenever shuffling
    permutes. *)
Lemma pixels_of_perm shuffle P seed :
  (∀ s l, l ≡ₚ shuffle s l) → seq 0 P ≡ₚ pixels_of shuffle P seed.
Proof. intros Hs. unfold pixels_of. destruct seed; [done | apply Hs]. Qed.

(** ** Embedding then extracting *)

(** The round trip along any order of distinct pixels of the picture. *)
Lemma roundtrip_pixels DELIMITER C a alloc pixels M :
  wf_image C a → wf_alloc C alloc →
  NoDup pixels → Forall (λ p, p < length a) pixels →
  Forall (λ c, (c < 256)%N) (M ++ DELIMITER) →
  Py.contains (Py.upto (M ++ DELIMITER) (-1)) DELIMITER = false →
  B * (length M + length DELIMITER) ≤ length pixels * sum_list (alloc.*2) →
  ∃ a', embed a alloc pixels (to_bits (M ++ DELIMITER)) = Some a'
        ∧ bytes a'
        ∧ extract DELIMITER a' alloc pixels = Some (Hidden M).
Proof.
  intros Ha Hal Hnd Hpix Hcs Hfirst Hcap.
  pose proof (wf_steps_product _ _ _ _ Ha Hal Hpix) as Hw.
  pose proof (wf_image_bytes _ _ Ha) as Hb.
  assert (NoDup (positions (Py.product pixels alloc))) as Hpos.
  { rewrite positions_product. apply NoDup_product; [done | apply Hal]. }
  unfold embed, extract.
  destruct (embed_loop_is_Some (to_bits (M ++ DELIMITER)) _ a 0 Hw)
    as [a' Ha'].
  exists a'. split; [done|].
  assert (bytes a') as Hb'.
  { eapply embed_loop_bytes; [exact Hb| |exact Ha'].
    eapply Forall_impl; [exact Hw|]. intros s [_ ?]. lia. }
  split; [done|].
  destruct (embed_loop_read _ _ _ _ _ Hw Hpos Hb Ha') as [g Hg].
  rewrite drop_0, take_ge in Hg.
  2:{ rewrite length_to_bits, total_bits_product, length_app by done. lia. }
  rewrite (extract_loop_stream DELIMITER _ a' [] [] (M ++ DELIMITER) g).
  - simpl. rewrite endswith_contains by (apply endswith_spec; eauto).
    by rewrite removesuffix_app.
  - eapply wf_steps_dom; [|exact Hw]. by eapply embed_loop_dom.
  - done.
  - unfold B. simpl. lia.
  - done.
  - done.
  - intros k Hk. rewrite app_nil_l. rewrite upto_minus_1 in Hfirst.
    replace (take k (M ++ DELIMITER))
      with (take k (take (length (M ++ DELIMITER) - 1) (M ++ DELIMITER))).
    + by apply contains_false_prefix.
    + rewrite take_take. f_equal. lia.
  - rewrite app_nil_l. apply endswith_spec. eauto.
Qed.

Lemma limit_of_fits DELIMITER P alloc n :
  (Z.of_nat n ≤ limit_of DELIMITER P alloc)%Z →
  B * (n + length DELIMITER) ≤ P * sum_list (alloc.*2).
Proof.
  unfold limit_of, B. intros Hn.
  pose proof (Z.mul_div_le (Z.of_nat P * Z.of_nat (sum_list (alloc.*2))) 8).
  lia.
Qed.

(** C1 (as amended). For every message [M] of printable characters such that
    the delimiter does not occur in [M + DELIMITER] before its last
    character, every well-formed allocation, every seed and every picture
    with [len(M)] at most the computed limit, extracting from the picture
    produced by embedding the framed [M], with the same allocation and the
    same seed-derived pixel order, returns exactly [M]. *)
Theorem embed_extract_roundtrip DELIMITER shuffle C P a alloc seed M :
  (∀ s l, l ≡ₚ shuffle s l) →
  wf_image C a → length a = P → wf_alloc C alloc →
  Forall (λ c, c ∈ Py.printable) M →
  Forall (λ c, c ∈ Py.printable) DELIMITER →
  Py.contains (Py.upto (M ++ DELIMITER) (-1)) DELIMITER = false →
  (Z.of_nat (length M) ≤ limit_of DELIMITER P alloc)%Z →
  ∃ a', embed a alloc (pixels_of shuffle P seed) (to_bits (M ++ DELIMITER))
        = Some a'
        ∧ extract DELIMITER (astype_uint8 a') alloc (pixels_of shuffle P seed)
          = Some (Hidden M).
Proof.
  intros Hs Ha HP Hal HM HD Hfirst Hcap.
  pose proof (pixels_of_perm shuffle P seed Hs) as Hperm.
  destruct (roundtrip_pixels DELIMITER C a alloc (pixels_of shuffle P seed) M)
    as (a' & Hemb & Hb & Hext); try done.
  - rewrite <- Hperm. apply NoDup_seq.
  - rewrite <- Hperm. apply Forall_forall. intros p Hp.
    apply elem_of_seq in Hp. lia.
  - apply Forall_app. split; (eapply Forall_impl; [eassumption|]);
      apply printable_byte.
  - rewrite <- Hperm, length_seq. by apply limit_of_fits.
  - exists a'. by rewrite bytes_astype.
Qed.

(** C2. For pixel count [P], an allocation whose bit counts sum to [S] and a
    delimiter of [D] characters, the character limit computed is
    [floor((P * S) / 8) - D], the formula of section 4.1, the floor being
    the largest [q] with [8 * q <= P * S]; and this is the limit [refresh]
    stores for the allocation it reads from the scales. *)
Theorem refresh_limit_formula DELIMITER P alloc :
  let S := Z.of_nat (sum_list (alloc.*2)) in
  let D := Z.of_nat (length DELIMITER) in
  let limit := limit_of DELIMITER P alloc in
  limit = capacity_formula (Z.of_nat P) S D
  ∧ (8 * (limit + D) ≤ Z.of_nat P * S < 8 * (limit + D + 1))%Z
  ∧ ∀ scales widget,
      band_lsb (refresh DELIMITER P scales widget) = alloc →
      ch_limit (refresh DELIMITER P scales widget) = limit.
Proof.
  intros S D limit. subst S D limit. unfold limit_of, capacity_formula, B.
  split; [done|]. split; [|by intros scales widget <-].
  set (x := (Z.of_nat P * _)%Z).
  pose proof (Z.mul_div_le x 8). pose proof (Z.mul_succ_div_gt x 8). lia.
Qed.

(** C3 (as amended). At image-open time the capacity reported for a picture
    of [P] pixels is [P * number_of_bands - D]: the formula of section 4.1
    evaluated with the full [B] = 8 bits on each of the three bands, not
    with 1 bit per band. *)
Theorem open_capacity_formula DELIMITER P data :
  min_pix DELIMITER ≤ P →
  ∃ pic, open_ DELIMITER P data
         = Some (pic, (Z.of_nat P * Z.of_nat (length band_scl)
                       - Z.of_nat (length DELIMITER))%Z)
    ∧ pixel pic = P
    ∧ (Z.of_nat P * Z.of_nat (length band_scl) - Z.of_nat (length DELIMITER))%Z
      = capacity_formula (Z.of_nat P)
          (Z.of_nat (B * length band_scl)) (Z.of_nat (length DELIMITER)).
Proof.
  intros HP. unfold open_.
  destruct (Nat.ltb_spec P (min_pix DELIMITER)) as [?|_]; [lia|].
  eexists. split_and!; [done..|].
  unfold capacity_formula, B, band_scl. cbn [length].
  replace (Z.of_nat P * Z.of_nat (8 * 3))%Z with (Z.of_nat P * 3 * 8)%Z by lia.
  rewrite Z.div_mul by done. lia.
Qed.

(** C6. When the framed bit string is longer than the traversal can carry
    (allocated bits per pixel times pixel count), [encode] does not raise:
    the loop writes the leading bits until the traversal is exhausted, so
    that reading the traversal back gives exactly the first
    [pixel_count * bits_per_pixel] bits, the rest is dropped without any
    error dialog, and the output picture is still saved. *)
Theorem encode_overflow_truncates DELIMITER HILL shuffle C e w ci :
  (∀ s l, l ≡ₚ shuffle s l) →
  wf_image C (imagedata (picture w)) →
  length (imagedata (picture w)) = pixel (picture w) →
  wf_alloc C (band_lsb (globals w)) →
  first_nonprintable (text e) = None →
  cipher e = Some ci → name ci ≠ HILL →
  output e = File → writable e = true →
  let bits := to_bits (encrypt ci (text e) ++ DELIMITER) in
  let pixels := pixels_of shuffle (pixel (picture w)) (seed e) in
  let alloc := band_lsb (globals w) in
  let total := pixel (picture w) * sum_list (alloc.*2) in
  total < length bits →
  ∃ a', embed (imagedata (picture w)) alloc pixels bits = Some a'
        ∧ read_bits a' (Py.product pixels alloc) = take total bits
        ∧ stego (encode DELIMITER HILL shuffle e w) = Some (astype_uint8 a')
        ∧ last (shown (encode DELIMITER HILL shuffle e w)) = Some InfoEncoded.
Proof.
  intros Hs Ha HP Hal Hpr Hci Hname Hout Hwr bits pixels alloc total Hlong.
  pose proof (pixels_of_perm shuffle (pixel (picture w)) (seed e) Hs) as Hperm.
  fold pixels in Hperm.
  assert (NoDup pixels) as Hnd by (rewrite <- Hperm; apply NoDup_seq).
  assert (Forall (λ p, p < length (imagedata (picture w))) pixels) as Hpix.
  { rewrite <- Hperm. apply Forall_forall. intros p Hp.
    apply elem_of_seq in Hp. lia. }
  assert (length pixels = pixel (picture w)) as Hlen
    by (by rewrite <- Hperm, length_seq).
  pose proof (wf_steps_product _ _ _ _ Ha Hal Hpix) as Hw.
  pose proof (wf_image_bytes _ _ Ha) as Hb.
  assert (NoDup (positions (Py.product pixels alloc))) as Hpos.
  { rewrite positions_product. apply NoDup_product; [done | apply Hal]. }
  destruct (embed_loop_is_Some bits _ (imagedata (picture w)) 0 Hw)
    as [a' Ha'].
  exists a'. split; [done|].
  assert (read_bits a' (Py.product pixels alloc) = take total bits) as Hread.
  { destruct (embed_loop_read _ _ _ _ _ Hw Hpos Hb Ha') as [g Hg].
    rewrite drop_0, total_bits_product, Hlen in Hg. fold total in Hg.
    assert (length g = 0) as Hg0.
    { apply (f_equal length) in Hg.
      rewrite length_read_bits, total_bits_product, Hlen in Hg.
      - rewrite length_app, length_take in Hg. unfold total, alloc in Hlong.
        lia.
      - eapply wf_steps_dom; [|exact Hw]. by eapply embed_loop_dom.
      - eapply embed_loop_bytes; [exact Hb| |exact Ha'].
        eapply Forall_impl; [exact Hw|]. intros s [_ ?]. lia. }
    destruct g; [|done]. by rewrite app_nil_r in Hg. }
  split; [done|].
  assert (embed (imagedata (picture w)) (band_lsb (globals w))
            (pixels_of shuffle (pixel (picture w)) (seed e))
            (to_bits (encrypt ci (text e) ++ DELIMITER)) = Some a') as He
    by exact Ha'.
  unfold encode. rewrite Hpr, Hci, Hout.
  replace (String.eqb (name ci) HILL) with false
    by (symmetry; by apply String.eqb_neq).
  cbn [andb].
  destruct (Py.contains (text e) DELIMITER); cbn [picture globals show];
    rewrite He, Hwr; cbn [stego shown show save_stego]; by rewrite last_snoc.
Qed.

(** ** Bit fields of a channel value *)

Lemma shiftr_int2_app h x :
  N.shiftr (Py.int2 (h ++ x)) (N.of_nat (length x)) = Py.int2 h.
Proof.
  pose proof (int2_lt x) as Hx.
  rewrite int2_app, N.shiftr_div_pow2.
  rewrite N.div_add_l by (apply N.pow_nonzero; lia).
  rewrite N.div_small by done. lia.
Qed.

Lemma land_int2_app h x :
  N.land (Py.int2 (h ++ x)) (N.ones (N.of_nat (length x))) = Py.int2 x.
Proof.
  pose proof (int2_lt x) as Hx.
  rewrite int2_app, N.land_ones, N.add_comm.
  rewrite N.Div0.mod_add. by apply N.mod_small.
Qed.

(** The value of a bit string above its [n] low-order digits, and the value
    of those digits. *)
Lemma int2_fields s n :
  n ≤ length s →
  N.shiftr (Py.int2 s) (N.of_nat n) = Py.int2 (take (length s - n) s)
  ∧ N.land (Py.int2 s) (N.ones (N.of_nat n)) = Py.int2 (drop (length s - n) s).
Proof.
  intros Hn.
  pose proof (shiftr_int2_app (take (length s - n) s) (drop (length s - n) s))
    as Hhi.
  pose proof (land_int2_app (take (length s - n) s) (drop (length s - n) s))
    as Hlo.
  rewrite take_drop, length_drop in Hhi, Hlo.
  by replace (length s - (length s - n)) with n in Hhi, Hlo by lia.
Qed.

(** The bit fields of a packed byte, for a chunk of [r <= lsb] bits: the
    high-order [B - lsb] bits and the low-order [lsb - r] bits are those of
    the old byte, the [r] bits in between are the chunk. *)
Lemma pack_fields val lsb chunk :
  length val = B → lsb ≤ B → length chunk ≤ lsb →
  N.shiftr (Py.int2 (pack val lsb chunk)) (N.of_nat lsb)
  = N.shiftr (Py.int2 val) (N.of_nat lsb)
  ∧ N.land (Py.int2 (pack val lsb chunk))
      (N.ones (N.of_nat (lsb - length chunk)))
    = N.land (Py.int2 val) (N.ones (N.of_nat (lsb - length chunk)))
  ∧ N.land (N.shiftr (Py.int2 (pack val lsb chunk))
              (N.of_nat (lsb - length chunk)))
      (N.ones (N.of_nat (length chunk)))
    = Py.int2 chunk.
Proof.
  intros Hval Hl Hc.
  pose proof (length_pack val lsb chunk Hval Hl Hc) as Hpack.
  rewrite pack_take_drop in * by done.
  set (packed := take (B - lsb) val ++ chunk
                 ++ drop (B - lsb + length chunk) val) in *.
  destruct (int2_fields packed lsb) as [Hhi _]; [lia|].
  destruct (int2_fields packed (lsb - length chunk)) as [Hmid Hlo]; [lia|].
  destruct (int2_fields val lsb) as [Hhi' _]; [lia|].
  destruct (int2_fields val (lsb - length chunk)) as [_ Hlo']; [lia|].
  rewrite Hhi, Hhi', Hlo, Hlo', Hmid, Hpack, Hval. unfold packed.
  split_and!.
  - f_equal. apply take_app_length'. rewrite length_take. lia.
  - f_equal. rewrite app_assoc.
    rewrite drop_app_length' by (rewrite length_app, length_take; lia).
    f_equal. lia.
  - rewrite app_assoc.
    rewrite take_app_length' by (rewrite length_app, length_take; lia).
    apply land_int2_app.
Qed.

Lemma embed_step_value bits a i pix band lsb v :
  getitem a pix band = Some v →
  ∃ a', embed_step bits a i pix band lsb = Some a'
        ∧ getitem a' pix band
          = Some (Py.int2 (pack (Py.format_b B v) lsb
                             (Py.slice bits i (i + lsb)))).
Proof.
  intros Hv.
  destruct (embed_step_is_Some bits a i pix band lsb) as [a' Ha']; [eauto|].
  exists a'. split; [done|].
  apply embed_step_Some in Ha' as (v' & Hv' & Hget).
  rewrite Hget, decide_True by done. congruence.
Qed.

(** Steps after the cursor has reached the end of the bit string do
    nothing. *)
Lemma embed_loop_app_done bits steps :
  ∀ a i rest, length bits ≤ i + total_bits steps →
  embed_loop bits a i (steps ++ rest) = embed_loop bits a i steps.
Proof.
  induction steps as [|[pix [band lsb]] steps IH]; intros a i rest Hi.
  - change (total_bits []) with 0 in Hi. rewrite app_nil_l.
    destruct rest as [|[pix [band lsb]] rest]; [done|]. cbn [embed_loop].
    destruct (Nat.leb_spec (length bits) i); [done | lia].
  - rewrite total_bits_cons in Hi. rewrite <- app_comm_cons.
    cbn [embed_loop]. destruct (length bits <=? i); [done|].
    destruct (embed_step bits a i pix band lsb) as [a1|]; [|done].
    cbn [mbind option_bind]. apply IH. lia.
Qed.

(** The two fields of the value written by a step that has [lsb] message
    bits left to take. *)
Lemma embed_step_fields bits i lsb v :
  (v < 256)%N → lsb ≤ B → i + lsb ≤ length bits →
  N.shiftr (Py.int2 (pack (Py.format_b B v) lsb (Py.slice bits i (i + lsb))))
    (N.of_nat lsb)
  = N.shiftr v (N.of_nat lsb)
  ∧ N.land (Py.int2 (pack (Py.format_b B v) lsb (Py.slice bits i (i + lsb))))
      (N.ones (N.of_nat lsb))
    = Py.int2 (Py.slice bits i (i + lsb)).
Proof.
  intros Hbyte Hl Hi.
  assert (length (Py.slice bits i (i + lsb)) = lsb) as Hchunk
    by (rewrite length_slice; lia).
  destruct (pack_fields (Py.format_b B v) lsb (Py.slice bits i (i + lsb)))
    as (Hhi & _ & Hmid); [by apply length_format_byte | done | lia |].
  split.
  - by rewrite Hhi, int2_format_b.
  - rewrite Hchunk, Nat.sub_diag, N.shiftr_0_r in Hmid. done.
Qed.

(** What the loop leaves in the channel of the step that follows [done], in
    terms of the cursor at which the loop reaches it. *)
Lemma embed_loop_at bits done :
  ∀ a i0 pix band lsb rest a' v,
  bytes a →
  Forall (λ s, 1 ≤ s.2.2 ≤ B) (done ++ (pix, (band, lsb)) :: rest) →
  NoDup (positions (done ++ (pix, (band, lsb)) :: rest)) →
  embed_loop bits a i0 (done ++ (pix, (band, lsb)) :: rest) = Some a' →
  getitem a pix band = Some v →
  (i0 + total_bits done + lsb ≤ length bits →
     ∃ v', getitem a' pix band = Some v'
       ∧ N.shiftr v' (N.of_nat lsb) = N.shiftr v (N.of_nat lsb)
       ∧ N.land v' (N.ones (N.of_nat lsb))
         = Py.int2 (Py.slice bits (i0 + total_bits done)
                      (i0 + total_bits done + lsb)))
  ∧ (length bits ≤ i0 + total_bits done → getitem a' pix band = Some v).
Proof.
  induction done as [|[p0 [b0 l0]] done IH];
    intros a i0 pix band lsb rest a' v Hb Hl Hnd He Hv.
  - cbn [app] in *. change (total_bits []) with 0. rewrite Nat.add_0_r.
    apply Forall_cons in Hl as [[Hl1 Hl2] Hl]. cbn [snd] in Hl1, Hl2.
    change (positions ((pix, (band, lsb)) :: rest))
      with ((pix, band) :: positions rest) in Hnd.
    apply NoDup_cons in Hnd as [Hn Hnd]. cbn [embed_loop] in He.
    destruct (Nat.leb_spec (length bits) i0) as [Hend|Hmore].
    + injection He as <-. split; [lia | done].
    + split; [|lia]. intros Hfit.
      destruct (embed_step_value bits a i0 pix band lsb v Hv)
        as (a1 & Ha1 & Hg).
      rewrite Ha1 in He. cbn [mbind option_bind] in He.
      eexists. split.
      * rewrite (embed_loop_frame _ _ _ _ _ He) by done. exact Hg.
      * apply embed_step_fields; [by eapply Hb | done | done].
  - assert (1 ≤ lsb) as Hlsb.
    { apply Forall_app in Hl as [_ Hl]. by apply Forall_cons in Hl as [[? _] _]. }
    rewrite <- app_comm_cons in Hl, Hnd, He. rewrite total_bits_cons.
    apply Forall_cons in Hl as [[Hl1 Hl2] Hl]. cbn [snd] in Hl1, Hl2.
    change (positions ((p0, (b0, l0)) :: done ++ (pix, (band, lsb)) :: rest))
      with ((p0, b0) :: positions (done ++ (pix, (band, lsb)) :: rest))
      in Hnd.
    apply NoDup_cons in Hnd as [Hn Hnd]. cbn [embed_loop] in He.
    destruct (Nat.leb_spec (length bits) i0) as [Hend|Hmore].
    + injection He as <-. split; [lia | done].
    + destruct (embed_step bits a i0 p0 b0 l0) as [a1|] eqn:Hs; [|done].
      cbn [mbind option_bind] in He.
      pose proof (embed_step_bytes _ _ _ _ _ _ _ Hb Hl2 Hs) as Hb1.
      apply embed_step_Some in Hs as (v0 & Hv0 & Hget).
      assert (getitem a1 pix band = Some v) as Hv1.
      { rewrite Hget, decide_False; [done|]. intros [-> ->]. apply Hn.
        unfold positions. rewrite fmap_app. apply elem_of_app. right.
        by left. }
      destruct (IH a1 (i0 + l0) pix band lsb rest a' v Hb1 Hl Hnd He Hv1)
        as [H1 H2].
      replace (i0 + (l0 + total_bits done))
        with (i0 + l0 + total_bits done) by lia.
      done.
Qed.

(** C5. The loop of [encode] never raises on a picture that has the
    channels of the traversal, and in the picture it returns, for every
    step of the traversal: when at least [lsb] message bits remain as the
    loop reaches the step, the channel value keeps the high-order
    [8 - lsb] bits it had and carries the next [lsb] message bits in its
    low-order [lsb] bits; and when the cursor has reached the end of the
    bit string, the channel holds the value it had. *)
Theorem embed_step_overwrites_low_bits C a alloc pixels bits :
  wf_image C a → wf_alloc C alloc →
  NoDup pixels → Forall (λ p, p < length a) pixels →
  ∃ a', embed a alloc pixels bits = Some a'
    ∧ ∀ done pix band lsb rest v,
        Py.product pixels alloc = done ++ (pix, (band, lsb)) :: rest →
        getitem a pix band = Some v →
        (total_bits done + lsb ≤ length bits →
           ∃ v', getitem a' pix band = Some v'
             ∧ N.shiftr v' (N.of_nat lsb) = N.shiftr v (N.of_nat lsb)
             ∧ N.land v' (N.ones (N.of_nat lsb))
               = Py.int2 (Py.slice bits (total_bits done)
                            (total_bits done + lsb)))
        ∧ (length bits ≤ total_bits done → getitem a' pix band = Some v).
Proof.
  intros Ha Hal Hnd Hpix.
  pose proof (wf_steps_product _ _ _ _ Ha Hal Hpix) as Hw.
  unfold embed.
  destruct (embed_loop_is_Some bits _ a 0 Hw) as [a' He].
  exists a'. split; [done|].
  intros done pix band lsb rest v Hsplit Hv.
  rewrite Hsplit in He, Hw.
  apply (embed_loop_at bits done a 0 pix band lsb rest a' v);
    [by eapply wf_image_bytes| | |done..].
  - eapply Forall_impl; [exact Hw|]. by intros s [_ ?].
  - rewrite <- Hsplit, positions_product.
    apply NoDup_product; [done | apply Hal].
Qed.

(** C10. On the final embedding step, when only [r] message bits remain with
    [0 < r < lsb], the channel value keeps its high-order [8 - lsb] bits and
    its low-order [lsb - r] bits, and the [r] bits in between become the
    remaining message bits; and in every case the packed string has exactly
    8 digits, so that the value written is in the range 0..255. *)
Theorem embed_step_partial_chunk bits a i pix band lsb v :
  getitem a pix band = Some v → (v < 256)%N →
  lsb ≤ B → i < length bits → length bits - i < lsb →
  let r := length bits - i in
  (∃ a' v', embed_step bits a i pix band lsb = Some a'
     ∧ getitem a' pix band = Some v'
     ∧ N.shiftr v' (N.of_nat lsb) = N.shiftr v (N.of_nat lsb)
     ∧ N.land v' (N.ones (N.of_nat (lsb - r)))
       = N.land v (N.ones (N.of_nat (lsb - r)))
     ∧ N.land (N.shiftr v' (N.of_nat (lsb - r))) (N.ones (N.of_nat r))
       = Py.int2 (drop i bits))
  ∧ (∀ j l, l ≤ B →
       let packed := pack (Py.format_b B v) l (Py.slice bits j (j + l)) in
       length packed = B ∧ (Py.int2 packed < 256)%N).
Proof.
  intros Hv Hbyte Hl Hi Hr r.
  assert (length (Py.format_b B v) = B) as Hval
    by (by apply length_format_byte).
  split.
  - destruct (embed_step_value bits a i pix band lsb v Hv) as (a' & Ha' & Hg).
    eexists a', _. split_and!; [done..| | |].
    all: assert (Py.slice bits i (i + lsb) = drop i bits) as Hslice
        by (unfold Py.slice; apply take_ge; rewrite length_drop; lia);
      assert (length (drop i bits) = r) as Hchunk by apply length_drop;
      rewrite Hslice;
      destruct (pack_fields (Py.format_b B v) lsb (drop i bits))
        as (Hhi & Hlo & Hmid); [done | done | lia |];
      rewrite Hchunk, ?int2_format_b in *; done.
  - intros j l Hjl packed.
    assert (length packed = B) as Hp.
    { apply length_pack; [done | done |]. rewrite length_slice. lia. }
    split; [done | by apply int2_byte].
Qed.

(** C8. When the ciphertext of the Hill cipher is longer than the current
    character limit, [encode] stops before any embedding: the picture buffer
    is as it was and no output picture is written; and once the earlier
    checks have passed (printable text, a file chosen), the dialog it ends
    on is the over-limit error. *)
Theorem encode_hill_over_limit DELIMITER HILL shuffle e w ci :
  cipher e = Some ci → name ci = HILL →
  (ch_limit (globals w) < Z.of_nat (length (encrypt ci (text e))))%Z →
  picture (encode DELIMITER HILL shuffle e w) = picture w
  ∧ stego (encode DELIMITER HILL shuffle e w) = stego w
  ∧ (InfoEncoded
     ∉ drop (length (shown w)) (shown (encode DELIMITER HILL shuffle e w)))
  ∧ (first_nonprintable (text e) = None → output e = File →
     shown (encode DELIMITER HILL shuffle e w)
     = shown w
       ++ (if Py.contains (text e) DELIMITER then [WarnDelimiter] else [])
       ++ [ErrOverLimit (length (encrypt ci (text e)))]).
Proof.
  intros Hci Hname Hlong. unfold encode. rewrite Hci.
  replace (String.eqb (name ci) HILL) with true
    by (symmetry; by apply String.eqb_eq).
  destruct (first_nonprintable (text e)) as [c|].
  { cbn [show picture stego shown]. split_and!; [done..| |done].
    rewrite drop_app_length. by intros [=]%list_elem_of_singleton. }
  destruct (Py.contains (text e) DELIMITER), (output e);
    cbn [show picture globals stego shown andb];
    rewrite ?(proj2 (Z.ltb_lt _ _) Hlong);
    cbn [show picture globals stego shown];
    (split_and!; [done | done | | (done || by rewrite <- ?app_assoc)]);
    rewrite <- ?app_assoc, ?drop_app_length, ?drop_all; cbn [app];
    repeat (apply not_elem_of_cons; split; [done|]); apply not_elem_of_nil.
Qed.

(** ** Halting of the extraction *)

(** One step of the uncut traversal, and the same step of [extract_loop]
    when the message does not yet end with the delimiter. *)
Lemma running_cons a bits msg pix band lsb rest ms :
  running a bits msg ((pix, (band, lsb)) :: rest) = Some ms →
  ∃ bits' msg' ms',
    ms = msg' :: ms'
    ∧ running a bits' msg' rest = Some ms'
    ∧ (msg' = msg ∨ ∃ c, msg' = msg ++ [c])
    ∧ (∀ DELIMITER, Py.endswith msg DELIMITER = false →
       extract_loop DELIMITER a bits msg ((pix, (band, lsb)) :: rest)
       = extract_loop DELIMITER a bits' msg' rest).
Proof.
  cbn [running extract_loop]. intros Hrun.
  destruct (getitem a pix band) as [v|]; [|done].
  cbn [mbind option_bind] in *.
  destruct (B <=? length (bits ++ low_bits v lsb)).
  - destruct (running a _ _ rest) as [ms'|] eqn:Hr; [|done].
    simplify_eq/=. eexists _, _, ms'. split_and!; [done|exact Hr|eauto|].
    by intros D ->.
  - destruct (running a _ _ rest) as [ms'|] eqn:Hr; [|done].
    simplify_eq/=. eexists _, _, ms'. split_and!; [done|exact Hr|eauto|].
    by intros D ->.
Qed.

(** The loop returns the first running message that ends with the
    delimiter, or the last running message when none does. *)
Lemma extract_loop_running DELIMITER steps :
  ∀ a bits msg ms, running a bits msg steps = Some ms →
  ∃ m, extract_loop DELIMITER a bits msg steps = Some m
    ∧ ((∃ j, (msg :: ms) !! j = Some m
          ∧ Py.endswith m DELIMITER = true
          ∧ ∀ j' m', j' < j → (msg :: ms) !! j' = Some m' →
              Py.endswith m' DELIMITER = false)
       ∨ (last (msg :: ms) = Some m
          ∧ ∀ m', m' ∈ msg :: ms → Py.endswith m' DELIMITER = false)).
Proof.
  induction steps as [|[pix [band lsb]] rest IH]; intros a bits msg ms Hrun.
  - simpl in Hrun. simplify_eq. exists msg. split; [done|].
    destruct (Py.endswith msg DELIMITER) eqn:He.
    + left. exists 0. split_and!; [done..|]. intros; lia.
    + right. split; [done|]. by intros m' ->%list_elem_of_singleton.
  - destruct (Py.endswith msg DELIMITER) eqn:He.
    { exists msg. split; [cbn [extract_loop]; by rewrite He|].
      left. exists 0. split_and!; [done..|]. intros; lia. }
    apply running_cons in Hrun
      as (bits' & msg' & ms' & -> & Hrun & _ & Hstep).
    destruct (IH _ _ _ _ Hrun) as (m & Hm & Hcase).
    exists m. split; [by rewrite Hstep|].
    destruct Hcase as [(j & Hj & Hend & Hearlier)|[Hlast Hall]].
    + left. exists (S j). split_and!; [done..|].
      intros [|j'] m' Hlt Hm'; simpl in Hm'; [by simplify_eq|].
      eapply Hearlier; [|done]. lia.
    + right. split; [by rewrite last_cons_cons|].
      intros m' [->|Hin]%elem_of_cons; [done | by apply Hall].
Qed.

Lemma running_prefix steps :
  ∀ a bits msg ms, running a bits msg steps = Some ms →
  Forall (λ m, msg `prefix_of` m) ms.
Proof.
  induction steps as [|[pix [band lsb]] rest IH]; intros a bits msg ms Hrun.
  - simpl in Hrun. by simplify_eq.
  - apply running_cons in Hrun
      as (bits' & msg' & ms' & -> & Hrun & Hmsg' & _).
    assert (msg `prefix_of` msg') as Hpre.
    { destruct Hmsg' as [->|[c ->]]; [done | by apply prefix_app_r]. }
    constructor; [done|].
    eapply Forall_impl; [by eapply IH|]. intros m Hm. by etrans.
Qed.

(** Every prefix of the last running message, from the initial message on,
    is itself a running message. *)
Lemma running_take steps :
  ∀ a bits msg ms m k, running a bits msg steps = Some ms →
  last (msg :: ms) = Some m → length msg ≤ k ≤ length m →
  take k m ∈ msg :: ms.
Proof.
  induction steps as [|[pix [band lsb]] rest IH];
    intros a bits msg ms m k Hrun Hlast Hk.
  - simpl in Hrun. simplify_eq/=. rewrite take_ge by lia. by left.
  - pose proof (running_prefix _ _ _ _ _ Hrun) as Hpre.
    apply running_cons in Hrun
      as (bits' & msg' & ms' & -> & Hrun & Hmsg' & _).
    rewrite last_cons_cons in Hlast.
    destruct (decide (k = length msg)) as [->|Hne].
    + apply last_Some_elem_of in Hlast.
      destruct (proj1 (Forall_forall _ _) Hpre _ Hlast) as [x ->].
      rewrite take_app_length. by left.
    + right. apply (IH a bits'); [done..|].
      destruct Hmsg' as [->|[c ->]]; [lia|].
      rewrite length_app. simpl. lia.
Qed.

(** C7. Along any traversal that stays inside the picture: if some running
    message ends with the delimiter, extraction halts at the first such
    message and returns it with the trailing delimiter removed; if no
    running message ever ends with the delimiter, extraction returns the
    negative outcome "no hidden message found", without raising and without
    any decoded text. *)
Theorem extract_halts_at_delimiter DELIMITER a alloc pixels ms :
  running a [] [] (Py.product pixels alloc) = Some ms →
  (∀ j m, ([] :: ms) !! j = Some m →
     Py.endswith m DELIMITER = true →
     (∀ j' m', j' < j → ([] :: ms) !! j' = Some m' →
        Py.endswith m' DELIMITER = false) →
     extract_loop DELIMITER a [] [] (Py.product pixels alloc) = Some m
     ∧ extract DELIMITER a alloc pixels
       = Some (Hidden (Py.removesuffix m DELIMITER))
     ∧ Py.removesuffix m DELIMITER ++ DELIMITER = m)
  ∧ ((∀ m, m ∈ [] :: ms → Py.endswith m DELIMITER = false) →
     extract DELIMITER a alloc pixels = Some NoHiddenMessage).
Proof.
  intros Hrun.
  destruct (extract_loop_running DELIMITER _ _ _ _ _ Hrun)
    as (m0 & Hm0 & Hcase).
  unfold extract. rewrite Hm0. cbn [mbind option_bind]. split.
  - intros j m Hj Hend Hearlier.
    assert (m0 = m) as ->.
    { destruct Hcase as [(j0 & Hj0 & Hend0 & Hearlier0)|[_ Hall]].
      - destruct (Nat.lt_trichotomy j0 j) as [Hlt|[->|Hlt]].
        + rewrite (Hearlier _ _ Hlt Hj0) in Hend0. done.
        + congruence.
        + rewrite (Hearlier0 _ _ Hlt Hj) in Hend. done.
      - rewrite Hall in Hend; [done|]. apply list_elem_of_lookup. eauto. }
    rewrite endswith_contains by done.
    split_and!; [done..|]. by apply removesuffix_endswith.
  - intros Hnone. destruct Hcase as [(j0 & Hj0 & Hend0 & _)|[Hlast _]].
    { rewrite Hnone in Hend0; [done|]. apply list_elem_of_lookup. eauto. }
    destruct (Py.contains m0 DELIMITER) eqn:Hc; [|done].
    apply contains_prefix in Hc as (k & Hk & Hend).
    rewrite Hnone in Hend; [done|].
    eapply running_take; [done..|]. simpl. lia.
Qed.

(** What [decode] shows and writes for each outcome of the extraction. *)
Lemma decode_no_hidden_message DELIMITER shuffle e w ci :
  cipher e = Some ci → output e = File →
  extract DELIMITER (imagedata (picture w)) (band_lsb (globals w))
    (pixels_of shuffle (pixel (picture w)) (seed e)) = Some NoHiddenMessage →
  decode DELIMITER shuffle e w = show WarnNoHidden w.
Proof. intros Hci Hout Hext. unfold decode. by rewrite Hci, Hout, Hext. Qed.

Lemma decode_hidden DELIMITER shuffle e w ci message :
  cipher e = Some ci → output e = File → writable e = true →
  extract DELIMITER (imagedata (picture w)) (band_lsb (globals w))
    (pixels_of shuffle (pixel (picture w)) (seed e)) = Some (Hidden message) →
  decode DELIMITER shuffle e w
  = show InfoDecoded (save_text (decrypt ci message) w).
Proof.
  intros Hci Hout Hwr Hext. unfold decode. by rewrite Hci, Hout, Hext, Hwr.
Qed.

(** ** The brute-force search *)

Lemma search_none DELIMITER a pixels candidates :
  (∀ c, c ∈ candidates →
     ∃ m, extract_loop DELIMITER a [] [] (Py.product pixels c) = Some m
          ∧ Py.endswith m DELIMITER = false) →
  search DELIMITER a pixels candidates = Some None.
Proof.
  induction candidates as [|c rest IH]; intros Hall; [done|].
  cbn [search]. destruct (Hall c) as (m & -> & Hm); [by left|].
  cbn [mbind option_bind]. rewrite Hm. apply IH.
  intros c' Hc'. apply Hall. by right.
Qed.

Lemma search_first DELIMITER a pixels tried c later m :
  (∀ c', c' ∈ tried →
     ∃ m', extract_loop DELIMITER a [] [] (Py.product pixels c') = Some m'
           ∧ Py.endswith m' DELIMITER = false) →
  extract_loop DELIMITER a [] [] (Py.product pixels c) = Some m →
  Py.endswith m DELIMITER = true →
  search DELIMITER a pixels (tried ++ c :: later) = Some (Some (c, m)).
Proof.
  intros Htried Hc Hm. induction tried as [|c' tried IH].
  - cbn [app search]. rewrite Hc. cbn [mbind option_bind]. by rewrite Hm.
  - rewrite <- app_comm_cons. cbn [search].
    destruct (Htried c') as (m' & -> & Hm'); [by left|].
    cbn [mbind option_bind]. rewrite Hm'. apply IH.
    intros c'' Hc''. apply Htried. by right.
Qed.

(** A boolean check, candidate by candidate, that none of them yields a
    message ending with the delimiter. *)
Lemma search_tried_check DELIMITER a pixels (tried : list allocation) :
  Forall (λ c,
    (λ m, negb (Py.endswith m DELIMITER))
      <$> extract_loop DELIMITER a [] [] (Py.product pixels c) = Some true)
    tried →
  ∀ c, c ∈ tried →
    ∃ m, extract_loop DELIMITER a [] [] (Py.product pixels c) = Some m
         ∧ Py.endswith m DELIMITER = false.
Proof.
  intros Hall c Hc. pose proof (proj1 (Forall_forall _ _) Hall c Hc) as Hm.
  cbv beta in Hm.
  destruct (extract_loop DELIMITER a [] [] (Py.product pixels c)) as [m|];
    [|done].
  exists m. split; [done|]. apply negb_true_iff.
  cbn [fmap option_fmap option_map] in Hm. congruence.
Qed.

Lemma possibilities_lookup r g b :
  r ≤ 8 → g ≤ 8 → b ≤ 8 →
  possibilities !! (r * 81 + g * 9 + b)
  = Some (filter (λ bl, bl.2 ≠ 0) [(0, r); (1, g); (2, b)]).
Proof.
  assert (Forall (λ r, Forall (λ g, Forall (λ b,
            possibilities !! (r * 81 + g * 9 + b)
            = Some (filter (λ bl, bl.2 ≠ 0) [(0, r); (1, g); (2, b)]))
          (seq 0 9)) (seq 0 9)) (seq 0 9)) as Hall
    by (apply (bool_decide_unpack _); by vm_compute).
  intros Hr Hg Hb.
  pose proof (proj1 (Forall_forall _ _) Hall r) as Hall_r.
  pose proof (proj1 (Forall_forall _ _) (Hall_r ltac:(apply elem_of_seq; lia)) g)
    as Hall_g.
  apply (proj1 (Forall_forall _ _) (Hall_g ltac:(apply elem_of_seq; lia)) b).
  apply elem_of_seq. lia.
Qed.

Lemma length_possibilities : length possibilities = 9 ^ 3.
Proof. by vm_compute. Qed.

Lemma elem_of_possibilities c :
  c ∈ possibilities
  ↔ ∃ r g b, r ≤ 8 ∧ g ≤ 8 ∧ b ≤ 8
             ∧ c = filter (λ bl, bl.2 ≠ 0) [(0, r); (1, g); (2, b)].
Proof.
  split.
  - intros [i Hi]%list_elem_of_lookup.
    pose proof (lookup_lt_Some _ _ _ Hi) as Hlt.
    rewrite length_possibilities in Hlt. simpl in Hlt.
    pose proof (Nat.div_mod_eq i 81) as Hi81.
    pose proof (Nat.mod_upper_bound i 81 ltac:(done)) as Hm81.
    pose proof (Nat.div_mod_eq (i `mod` 81) 9) as Hi9.
    pose proof (Nat.mod_upper_bound (i `mod` 81) 9 ltac:(done)) as Hm9.
    exists (i / 81), (i `mod` 81 / 9), ((i `mod` 81) `mod` 9).
    assert (i = i / 81 * 81 + i `mod` 81 / 9 * 9 + (i `mod` 81) `mod` 9)
      as Heq by lia.
    assert (i / 81 ≤ 8 ∧ i `mod` 81 / 9 ≤ 8 ∧ (i `mod` 81) `mod` 9 ≤ 8)
      as (Hr & Hg & Hb) by lia.
    split_and!; [done..|].
    rewrite Heq, possibilities_lookup in Hi by done. congruence.
  - intros (r & g & b & Hr & Hg & Hb & ->).
    apply list_elem_of_lookup. eexists. by apply possibilities_lookup.
Qed.

(** C9. In brute-force mode the candidates are the full Cartesian product of
    an LSB count in [0, 8] for each of the 3 bands, 9^3 of them, each with
    its 0-bit bands dropped, in the fixed order in which the count of band 0
    varies slowest and that of band 2 fastest; the search returns the
    message of the first candidate, in that order, whose extraction ends
    with the delimiter, later candidates not being tried (that message is
    then decoded unless [nonascii] refuses it), and when no candidate's
    does the result is "no hidden message found". *)
Theorem brute_force_search DELIMITER nonascii a alloc pixels :
  length possibilities = 9 ^ 3
  ∧ (∀ r g b, r ≤ 8 → g ≤ 8 → b ≤ 8 →
       possibilities !! (r * 81 + g * 9 + b)
       = Some (filter (λ bl, bl.2 ≠ 0) [(0, r); (1, g); (2, b)]))
  ∧ (∀ c, c ∈ possibilities
          ↔ ∃ r g b, r ≤ 8 ∧ g ≤ 8 ∧ b ≤ 8
                     ∧ c = filter (λ bl, bl.2 ≠ 0) [(0, r); (1, g); (2, b)])
  ∧ (∀ tried c later m,
       possibilities = tried ++ c :: later →
       (∀ c', c' ∈ tried →
          ∃ m', extract_loop DELIMITER a [] [] (Py.product pixels c') = Some m'
                ∧ Py.endswith m' DELIMITER = false) →
       extract_loop DELIMITER a [] [] (Py.product pixels c) = Some m →
       Py.endswith m DELIMITER = true →
       search DELIMITER a pixels possibilities = Some (Some (c, m))
       ∧ decode_search DELIMITER nonascii true a alloc pixels
         = Some (match nonascii m with
                 | Some char => NotAscii char
                 | None => Found (Py.removesuffix m DELIMITER)
                 end))
  ∧ ((∀ c, c ∈ possibilities →
        ∃ m', extract_loop DELIMITER a [] [] (Py.product pixels c) = Some m'
              ∧ Py.endswith m' DELIMITER = false) →
     decode_search DELIMITER nonascii true a alloc pixels = Some NotFound).
Proof.
  split_and!.
  - apply length_possibilities.
  - apply possibilities_lookup.
  - apply elem_of_possibilities.
  - intros tried c later m Hsplit Htried Hc Hm. unfold decode_search.
    by rewrite Hsplit, (search_first DELIMITER _ _ _ _ _ m).
  - intros Hnone. unfold decode_search. by rewrite search_none.
Qed.



(** ** The example of the design document *)

(** C4 (as amended). With 100 pixels, the allocation {band 0: 1 bit}, the
    delimiter "#" and an empty seed, the computed limit is
    [floor(100 * 1 / 8) - 1 = 11] characters, and embedding "HI" then
    extracting with the same parameters returns "HI". *)
Theorem example_limit_and_roundtrip shuffle C a widget :
  0 < C → wf_image C a → length a = 100 →
  refresh (str "#") 100 [1; 0; 0] widget
  = {| band_lsb := [(0, 1)]; ch_limit := 11 |}
  ∧ ∃ a', embed a [(0, 1)] (pixels_of shuffle 100 [])
            (to_bits (str "HI" ++ str "#")) = Some a'
          ∧ extract (str "#") (astype_uint8 a') [(0, 1)]
              (pixels_of shuffle 100 []) = Some (Hidden (str "HI")).
Proof.
  intros HC Ha Hlen. split; [by destruct widget|].
  destruct (roundtrip_pixels (str "#") C a [(0, 1)] (seq 0 100) (str "HI"))
    as (a' & Hemb & Hb & Hext); try done.
  - split; [apply NoDup_singleton|]. apply Forall_singleton. unfold B.
    simpl. lia.
  - apply NoDup_seq.
  - apply Forall_forall. intros p Hp%elem_of_seq. lia.
  - apply (bool_decide_unpack _). by vm_compute.
  - apply Nat.leb_le. by vm_compute.
  - exists a'. by rewrite bytes_astype.
Qed.

(** ** Instances and counterexamples *)

Lemma example_limit_and_roundtrip_witness :
  ∃ a', embed picture_100 [(0, 1)] (seq 0 100)
          (to_bits (str "HI" ++ str "#")) = Some a'
        ∧ extract (str "#") (astype_uint8 a') [(0, 1)] (seq 0 100)
          = Some (Hidden (str "HI")).
Proof.
  apply (example_limit_and_roundtrip shuffle_rev 3 picture_100 None).
  - lia.
  - apply (bool_decide_unpack _). by vm_compute.
  - reflexivity.
Defined.

(** The limit of the example is not the 99 characters of the document. *)
Lemma example_limit_is_not_99 :
  ch_limit (refresh (str "#") 100 [1; 0; 0] None) ≠ 99%Z.
Proof. by vm_compute. Qed.

Lemma embed_extract_roundtrip_witness :
  ∃ a', embed picture_4 [(0, 3); (2, 8)] (pixels_of shuffle_rev 4 (str "k"))
          (to_bits (str "HI" ++ str "#")) = Some a'
        ∧ extract (str "#") (astype_uint8 a') [(0, 3); (2, 8)]
            (pixels_of shuffle_rev 4 (str "k")) = Some (Hidden (str "HI")).
Proof.
  apply (embed_extract_roundtrip (str "#") shuffle_rev 3 4 picture_4).
  - intros s l. unfold shuffle_rev. symmetry. apply reverse_Permutation.
  - apply (bool_decide_unpack _). by vm_compute.
  - reflexivity.
  - apply (bool_decide_unpack _). by vm_compute.
  - apply (bool_decide_unpack _). by vm_compute.
  - apply (bool_decide_unpack _). by vm_compute.
  - by vm_compute.
  - by vm_compute.
Defined.

(** A printable message that contains the delimiter fits the limit and is
    embedded, yet extraction returns only what precedes the delimiter. *)
Lemma roundtrip_fails_on_delimiter :
  let M := str "A#B" in
  Forall (λ c, c ∈ Py.printable) M
  ∧ Z.le (Z.of_nat (length M)) (limit_of (str "#") 100 [(0, 1)])
  ∧ wf_image 3 picture_100 ∧ length picture_100 = 100
  ∧ wf_alloc 3 [(0, 1)]
  ∧ ∃ a', embed picture_100 [(0, 1)] (pixels_of shuffle_rev 100 [])
            (to_bits (M ++ str "#")) = Some a'
          ∧ extract (str "#") (astype_uint8 a') [(0, 1)]
              (pixels_of shuffle_rev 100 []) = Some (Hidden (str "A"))
          ∧ Hidden (str "A") ≠ Hidden M.
Proof.
  split_and!; try (apply (bool_decide_unpack _); by vm_compute); try done.
  eexists. split_and!; [by vm_compute | by vm_compute | done].
Qed.

Lemma open_capacity_formula_witness :
  ∃ pic, open_ (str "#") 100 picture_100 = Some (pic, 299%Z).
Proof.
  destruct (open_capacity_formula (str "#") 100 picture_100)
    as (pic & Hopen & _); [apply Nat.leb_le; by vm_compute|].
  exists pic. exact Hopen.
Defined.

(** The capacity shown on opening a picture of 100 pixels is 299 characters,
    not the [floor(100 * 3 / 8) - 1 = 36] of one bit per band. *)
Lemma open_capacity_is_not_one_bit_per_band :
  ∃ pic cap, open_ (str "#") 100 picture_100 = Some (pic, cap)
    ∧ cap ≠ capacity_formula 100 (Z.of_nat (length band_scl))
              (Z.of_nat (length (str "#"))).
Proof. eexists _, _. split; [reflexivity | by vm_compute]. Qed.

Lemma embed_step_overwrites_low_bits_witness :
  ∃ a', embed picture_4 [(0, 3); (2, 8)] (seq 0 4) (to_bits (str "HI#"))
        = Some a'
    ∧ (∃ v', getitem a' 0 2 = Some v'
         ∧ N.shiftr v' (N.of_nat 8) = N.shiftr 255 (N.of_nat 8)
         ∧ N.land v' (N.ones (N.of_nat 8))
           = Py.int2 (Py.slice (to_bits (str "HI#")) 3 (3 + 8)))
    ∧ getitem a' 3 0 = Some 255%N.
Proof.
  destruct (embed_step_overwrites_low_bits 3 picture_4 [(0, 3); (2, 8)]
              (seq 0 4) (to_bits (str "HI#"))) as (a' & He & Hsteps).
  - apply (bool_decide_unpack _). by vm_compute.
  - apply (bool_decide_unpack _). by vm_compute.
  - apply (bool_decide_unpack _). by vm_compute.
  - apply (bool_decide_unpack _). by vm_compute.
  - exists a'. split; [exact He|]. split.
    + destruct (Hsteps [(0, (0, 3))] 0 2 8
                  (drop 2 (Py.product (seq 0 4) [(0, 3); (2, 8)])) 255%N)
        as [Hwritten _]; [reflexivity | reflexivity |].
      apply Hwritten. apply Nat.leb_le. by vm_compute.
    + destruct (Hsteps (take 6 (Py.product (seq 0 4) [(0, 3); (2, 8)])) 3 0 3
                  (drop 7 (Py.product (seq 0 4) [(0, 3); (2, 8)])) 255%N)
        as [_ Hkept]; [reflexivity | reflexivity |].
      apply Hkept. apply Nat.leb_le. by vm_compute.
Defined.

Lemma embed_step_partial_chunk_witness :
  ∃ a' v', embed_step (to_bits (str "#")) picture_4 6 1 1 3 = Some a'
    ∧ getitem a' 1 1 = Some v'
    ∧ N.shiftr v' (N.of_nat 3) = N.shiftr 128 (N.of_nat 3).
Proof.
  destruct (embed_step_partial_chunk (to_bits (str "#")) picture_4 6 1 1 3 128)
    as [(a' & v' & Hstep & Hget & Hhi & _) _].
  - reflexivity.
  - reflexivity.
  - unfold B. lia.
  - apply Nat.ltb_lt. by vm_compute.
  - apply Nat.ltb_lt. by vm_compute.
  - by exists a', v'.
Defined.

Lemma encode_overflow_truncates_witness :
  last (shown (encode (str "#") "Hill" shuffle_rev entries_plain world_4))
  = Some InfoEncoded.
Proof.
  destruct (encode_overflow_truncates (str "#") "Hill" shuffle_rev 3
              entries_plain world_4 plain_cipher) as (a' & _ & _ & _ & H).
  - intros s l. unfold shuffle_rev. symmetry. apply reverse_Permutation.
  - apply (bool_decide_unpack _). by vm_compute.
  - reflexivity.
  - apply (bool_decide_unpack _). by vm_compute.
  - reflexivity.
  - reflexivity.
  - by vm_compute.
  - reflexivity.
  - reflexivity.
  - apply Nat.ltb_lt. by vm_compute.
  - exact H.
Defined.

Lemma extract_halts_at_delimiter_witness :
  extract (str "#") picture_4 [(0, 8)] (seq 0 4) = Some NoHiddenMessage.
Proof.
  destruct (extract_halts_at_delimiter (str "#") picture_4 [(0, 8)] (seq 0 4)
              [[200]; [200; 0]; [200; 0; 77]; [200; 0; 77; 255]]%N)
    as [_ H].
  - reflexivity.
  - apply H. apply Forall_forall.
    apply (bool_decide_unpack _). by vm_compute.
Defined.

Lemma encode_hill_over_limit_witness :
  picture (encode (str "#") "Hill" shuffle_rev entries_hill world_4)
  = picture world_4
  ∧ shown (encode (str "#") "Hill" shuffle_rev entries_hill world_4)
    = [ErrOverLimit 2].
Proof.
  destruct (encode_hill_over_limit (str "#") "Hill" shuffle_rev
              entries_hill world_4 hill_cipher) as (H & _ & _ & Hshown).
  - reflexivity.
  - reflexivity.
  - reflexivity.
  - split; [exact H|]. by rewrite Hshown.
Defined.

Lemma brute_force_search_witness :
  decode_search (str "#") (λ _, None) true stego_100 [] (seq 0 100)
  = Some (Found (str "HI")).
Proof.
  destruct (brute_force_search (str "#") (λ _, None) stego_100 []
              (seq 0 100)) as (_ & _ & _ & Hfound & _).
  destruct (Hfound (take 32 possibilities) [(1, 3); (2, 5)]
              (drop 33 possibilities) (str "HI#")) as [_ H].
  - by vm_compute.
  - apply search_tried_check. apply (bool_decide_unpack _). by vm_compute.
  - by vm_compute.
  - reflexivity.
  - exact H.
Defined.

(** * Further properties of the code *)

(** ** The character test of [encode] *)

Lemma first_nonprintable_Some message pre c post :
  message = pre ++ c :: post →
  Forall (λ x, x ∈ Py.printable) pre → c ∉ Py.printable →
  first_nonprintable message = Some c.
Proof.
  intros -> Hpre Hc. unfold first_nonprintable.
  induction Hpre as [|x pre Hx _ IH].
  - by rewrite app_nil_l, filter_cons_True.
  - rewrite <- app_comm_cons, filter_cons_False; [done|]. by intros ?.
Qed.

Lemma first_nonprintable_None message :
  Forall (λ x, x ∈ Py.printable) message → first_nonprintable message = None.
Proof.
  unfold first_nonprintable. induction 1 as [|x l Hx _ IH]; [done|].
  rewrite filter_cons_False; [done|]. by intros ?.
Qed.

(** X1. [encode] stops on the first character of the message that is not in
    [string.printable] and reports that character; a message of printable
    characters never gets this error. *)
Theorem encode_reports_first_nonprintable DELIMITER HILL shuffle e w :
  (∀ pre c post,
     text e = pre ++ c :: post →
     Forall (λ x, x ∈ Py.printable) pre → c ∉ Py.printable →
     encode DELIMITER HILL shuffle e w = show (ErrNonAscii c) w)
  ∧ (Forall (λ x, x ∈ Py.printable) (text e) →
     ∀ c, ErrNonAscii c
          ∉ drop (length (shown w))
              (shown (encode DELIMITER HILL shuffle e w))).
Proof.
  split.
  - intros pre c post Htext Hpre Hc. unfold encode.
    by rewrite (first_nonprintable_Some _ pre c post).
  - intros Hall c. unfold encode. rewrite first_nonprintable_None by done.
    destruct (Py.contains (text e) DELIMITER), (cipher e) as [ci|],
      (output e); cbn [show picture globals stego shown];
      repeat match goal with
      | |- context [if ?b then _ else _] => destruct b
      | |- context [match ?o with Some _ => _ | None => _ end] => destruct o
      end;
      cbn [show save_stego picture globals stego shown];
      rewrite <- ?app_assoc, ?drop_app_length, ?drop_all; cbn [app];
      repeat (apply not_elem_of_cons; split; [done|]); apply not_elem_of_nil.
Qed.

(** ** The limit and the smallest picture *)

Lemma limit_of_ge_1 DELIMITER P alloc :
  (1 ≤ limit_of DELIMITER P alloc)%Z
  ↔ B * (1 + length DELIMITER) ≤ P * sum_list (alloc.*2).
Proof.
  unfold limit_of, B.
  set (x := (Z.of_nat P * Z.of_nat (sum_list (alloc.*2)))%Z).
  pose proof (Z.mul_div_le x 8). pose proof (Z.mul_succ_div_gt x 8).
  assert (x = Z.of_nat (P * sum_list (alloc.*2))) by (unfold x; lia).
  lia.
Qed.

(** X2. [open_] accepts a picture exactly when one bit on one band leaves
    room for one character, and every picture it accepts has a limit of at
    least one character under every allocation of at least one bit. *)
Theorem open_accepts_least_room DELIMITER P data :
  (is_Some (open_ DELIMITER P data)
   ↔ Z.le 1 (limit_of DELIMITER P [(0, 1)]))
  ∧ (is_Some (open_ DELIMITER P data) →
     ∀ alloc, 1 ≤ sum_list (alloc.*2) →
       (1 ≤ limit_of DELIMITER P alloc)%Z).
Proof.
  assert (is_Some (open_ DELIMITER P data) ↔ min_pix DELIMITER ≤ P) as Hopen.
  { unfold open_. destruct (Nat.ltb_spec P (min_pix DELIMITER)).
    - split; [by intros [? ?] | lia].
    - split; [done | eauto]. }
  rewrite Hopen. unfold min_pix. split.
  - rewrite limit_of_ge_1. simpl. lia.
  - intros HP alloc Halloc. apply limit_of_ge_1. nia.
Qed.

(** ** The allocation read from the scales *)

Lemma sum_filter_imap (g : nat → nat → nat * nat) (l : list nat) :
  (∀ i x, (g i x).2 = x) →
  sum_list ((filter (λ bl, bl.2 ≠ 0) (imap g l)).*2) = sum_list l.
Proof.
  revert g. induction l as [|x l IH]; intros g Hg; [done|].
  rewrite imap_cons. destruct (decide (x = 0)) as [->|Hx].
  - rewrite filter_cons_False by (rewrite Hg; lia).
    rewrite IH; [done|]. intros i y. apply Hg.
  - rewrite filter_cons_True by (by rewrite Hg).
    rewrite fmap_cons. cbn [sum_list sum_list_with]. rewrite IH, Hg; [done|].
    intros i y. apply Hg.
Qed.

Lemma filter_imap_zero (g : nat → nat → nat * nat) (l : list nat) :
  (∀ i x, (g i x).2 = x) → Forall (λ n, n = 0) l →
  filter (λ bl, bl.2 ≠ 0) (imap g l) = [].
Proof.
  intros Hg Hl. revert g Hg. induction Hl as [|x l -> _ IH]; intros g Hg.
  - done.
  - rewrite imap_cons, filter_cons_False by (rewrite Hg; lia).
    apply IH. intros i y. apply Hg.
Qed.

Lemma filter_imap_nil (l : list nat) :
  filter (λ bl, bl.2 ≠ 0) (imap pair l) = [] ↔ Forall (λ n, n = 0) l.
Proof.
  split; [|by apply filter_imap_zero].
  intros Hnil. apply Forall_lookup. intros i x Hx.
  destruct (decide (x = 0)) as [|Hne]; [done|].
  assert ((i, x) ∈ filter (λ bl, bl.2 ≠ 0) (imap pair l)) as Hin.
  { apply list_elem_of_filter. split; [done|].
    by apply (elem_of_lookup_imap_2 pair). }
  rewrite Hnil in Hin. by apply elem_of_nil in Hin.
Qed.

(** The bits per pixel of the allocation [refresh] builds. *)
Lemma sum_scales_band_lsb scales widget :
  sum_list ((scales_band_lsb scales widget).*2)
  = match widget with
    | Some _ => if decide (Forall (λ n, n = 0) scales) then 1
                else sum_list scales
    | None => sum_list scales
    end.
Proof.
  unfold scales_band_lsb. destruct widget as [k|].
  - case_bool_decide as Hlen; case_decide as Hzero.
    + destruct Hlen. rewrite (proj2 (filter_imap_nil scales)); [|done].
      reflexivity.
    + by apply sum_filter_imap.
    + done.
    + destruct Hzero. apply filter_imap_nil.
      destruct (filter _ _); [done | inversion Hlen].
  - by apply sum_filter_imap.
Qed.

Lemma sum_list_zero (l : list nat) :
  Forall (λ n, n = 0) l → sum_list l = 0.
Proof. induction 1 as [|x l -> _ IH]; [done|]. simpl. done. Qed.

Lemma sum_list_positive (l : list nat) :
  ¬ Forall (λ n, n = 0) l → 1 ≤ sum_list l.
Proof.
  induction l as [|x l IH]; intros Hl; [by destruct Hl|].
  simpl. destruct (decide (x = 0)) as [->|]; [|lia].
  simpl. apply IH. intros Hz. apply Hl. by constructor.
Qed.

Lemma sum_list_le (l l' : list nat) :
  Forall2 le l l' → sum_list l ≤ sum_list l'.
Proof. induction 1; simpl; lia. Qed.

(** X3. The limit never decreases when the picture has more pixels or any
    scale is raised. *)
Theorem refresh_limit_monotone DELIMITER P P' scales scales' widget :
  P ≤ P' → Forall2 le scales scales' →
  (ch_limit (refresh DELIMITER P scales widget)
   ≤ ch_limit (refresh DELIMITER P' scales' widget))%Z.
Proof.
  intros HP Hs. unfold refresh, limit_of. cbn [ch_limit].
  rewrite !sum_scales_band_lsb. pose proof (sum_list_le _ _ Hs) as Hsum.
  assert (∀ S S', S ≤ S' →
    ((Z.of_nat P * Z.of_nat S) `div` Z.of_nat B - Z.of_nat (length DELIMITER)
     ≤ (Z.of_nat P' * Z.of_nat S') `div` Z.of_nat B
       - Z.of_nat (length DELIMITER))%Z) as Hmono.
  { intros S S' HS. apply Z.sub_le_mono_r, Z.div_le_mono; [unfold B; lia|].
    nia. }
  destruct widget as [k|]; [|by apply Hmono].
  destruct (decide (Forall (λ n, n = 0) scales)) as [Hz|Hz],
    (decide (Forall (λ n, n = 0) scales')) as [Hz'|Hz']; apply Hmono.
  - done.
  - by apply sum_list_positive.
  - rewrite (sum_list_zero scales') in Hsum by done.
    pose proof (sum_list_positive _ Hz). lia.
  - done.
Qed.

Lemma wf_alloc_scales scales :
  Forall (λ n, n ≤ B) scales →
  wf_alloc (length scales) (filter (λ bl, bl.2 ≠ 0) (imap pair scales)).
Proof.
  intros Hs. split.
  - assert ((imap pair scales).*1 = seq 0 (length scales)) as Hfst.
    { rewrite fmap_imap, <- (list_fmap_id (seq 0 _)).
      rewrite <- (imap_seq_0 scales id). by apply imap_ext. }
    apply (sublist_NoDup _ (seq 0 (length scales))); [apply NoDup_seq|].
    rewrite <- Hfst. apply fmap_sublist, sublist_filter.
  - apply Forall_forall. intros [i x] [Hnz Hin]%list_elem_of_filter.
    apply elem_of_lookup_imap_1 in Hin as (i' & y & [= -> ->] & Hy).
    cbn [fst snd] in *. pose proof (lookup_lt_Some _ _ _ Hy).
    pose proof (Forall_lookup_1 _ _ _ _ Hs Hy). cbv beta in *. lia.
Qed.

Lemma filter_imap_insert_one scales k :
  Forall (λ n, n = 0) scales → k < length scales →
  filter (λ bl, bl.2 ≠ 0) (imap pair (<[k := 1]> scales)) = [(k, 1)].
Proof.
  intros Hz Hk. rewrite insert_take_drop by done.
  rewrite imap_app, imap_cons, filter_app, filter_cons_True by done.
  rewrite !filter_imap_zero; try done.
  - rewrite length_take. simpl. do 2 f_equal. lia.
  - by apply Forall_drop.
  - by apply Forall_take.
Qed.

(** X4. After [refresh], the allocation stored in the control variables is
    exactly the non-zero scales as they then stand, the scale that was
    dragged to 0 last having been set back to 1; with scales up to 8 it is a
    well-formed allocation over the bands of the scales; and it is never
    empty after an event from a scale or when some scale is not 0. *)
Theorem refresh_event_allocation DELIMITER P source g :
  (∀ k, source = Scale k → k < length (g_scales g)) →
  let r := refresh_event DELIMITER P source g in
  band_lsb (r_globals r)
  = filter (λ bl, bl.2 ≠ 0) (imap pair (g_scales (r_gui r)))
  ∧ (Forall (λ n, n ≤ B) (g_scales g) →
     wf_alloc (length (g_scales g)) (band_lsb (r_globals r))
     ∧ Forall (λ n, n ≤ B) (g_scales (r_gui r)))
  ∧ ((∃ k, source = Scale k) ∨ ¬ Forall (λ n, n = 0) (g_scales g) →
     band_lsb (r_globals r) ≠ []).
Proof.
  intros Hk r. subst r. unfold refresh_event, refresh, scales_band_lsb.
  cbn [r_globals r_gui band_lsb g_scales].
  assert (∀ scales : list nat, ¬ Forall (λ n, n = 0) scales →
    filter (λ bl, bl.2 ≠ 0) (imap pair scales) ≠ []) as Hne
    by (intros scales Hz Hnil; by apply Hz, filter_imap_nil).
  destruct source as [k| |]; try (split_and!;
    [done | by (intros; split; [apply wf_alloc_scales|])
    | intros [[k [=]]|Hz]; by apply Hne]).
  specialize (Hk k eq_refl). case_bool_decide as Hlen.
  - split_and!; [done | by (intros; split; [apply wf_alloc_scales|]) |].
    intros _ Hnil. by rewrite Hnil in Hlen.
  - assert (Forall (λ n, n = 0) (g_scales g)) as Hz.
    { apply filter_imap_nil. destruct (filter _ _); [done | inversion Hlen]. }
    split_and!; [by rewrite filter_imap_insert_one | | done].
    intros HB. split.
    + split; [apply NoDup_singleton|]. apply Forall_singleton. unfold B.
      simpl. lia.
    + apply Forall_insert; [done | unfold B; lia].
Qed.

Lemma scales_band_lsb_positive scales widget :
  Forall (λ bl, 1 ≤ bl.2) (scales_band_lsb scales widget).
Proof.
  assert (Forall (λ bl, 1 ≤ bl.2)
            (filter (λ bl, bl.2 ≠ 0) (imap pair scales))) as Hf.
  { apply Forall_forall. intros bl [Hnz _]%list_elem_of_filter. lia. }
  unfold scales_band_lsb. destruct widget as [k|]; [|done].
  case_bool_decide; [done|]. by apply Forall_singleton.
Qed.

Lemma sum_list_positive_alloc (alloc : allocation) :
  alloc ≠ [] → Forall (λ bl, 1 ≤ bl.2) alloc → 1 ≤ sum_list (alloc.*2).
Proof.
  intros Hne Hpos. destruct Hpos as [|bl alloc Hbl _]; [done|].
  rewrite fmap_cons. simpl. lia.
Qed.

(** X5. For a picture [open_] accepts, whenever the allocation is not empty
    the limit [refresh] stores is at least 1, the text it leaves in the
    message box is a prefix of the message no longer than the limit, the
    figure displayed is the room left and is not negative, the framed text
    fits the bits of the traversal, and the encode event is bound only with
    a text that is not empty. *)
Theorem refresh_event_text_fits DELIMITER P source g :
  let r := refresh_event DELIMITER P source g in
  let limit := ch_limit (r_globals r) in
  let kept := g_message (r_gui r) in
  min_pix DELIMITER ≤ P → band_lsb (r_globals r) ≠ [] →
  (1 ≤ limit)%Z
  ∧ kept `prefix_of` g_message g
  ∧ (Z.of_nat (length kept) ≤ limit)%Z
  ∧ r_left r = (limit - Z.of_nat (length kept))%Z
  ∧ (0 ≤ r_left r)%Z
  ∧ B * (length kept + length DELIMITER)
    ≤ P * sum_list ((band_lsb (r_globals r)).*2)
  ∧ (r_encode r = true → kept ≠ []).
Proof.
  intros r limit kept HP Hne. subst r limit kept.
  unfold refresh_event in *.
  cbn [r_globals r_gui r_left r_encode g_message] in *.
  set (control := refresh DELIMITER P (g_scales g) _) in *.
  assert (1 ≤ ch_limit control)%Z as Hlimit.
  { unfold control, refresh in *. cbn [ch_limit band_lsb] in *.
    apply limit_of_ge_1.
    pose proof (sum_list_positive_alloc _ Hne
                  (scales_band_lsb_positive _ _)) as Hsum.
    unfold min_pix in HP. nia. }
  assert (∀ text : pystr, (Z.of_nat (length text) ≤ ch_limit control)%Z →
    B * (length text + length DELIMITER)
    ≤ P * sum_list ((band_lsb control).*2)) as Hfits
    by (intros text Ht; by apply limit_of_fits).
  destruct (Z.ltb_spec (ch_limit control) (Z.of_nat (length (g_message g))))
    as [Hlong|Hshort].
  - rewrite upto_nonneg by lia.
    assert (length (take (Z.to_nat (ch_limit control)) (g_message g))
            = Z.to_nat (ch_limit control)) as Hlen
      by (rewrite length_take; lia).
    split_and!; try lia; try (rewrite Hlen; lia).
    + apply prefix_take.
    + apply Hfits. rewrite Hlen. lia.
    + intros _ Hnil. rewrite Hnil in Hlen.
      change (0 = Z.to_nat (ch_limit control)) in Hlen. lia.
  - split_and!; try done; try lia.
    + by apply Hfits.
    + intros [_ Hmsg%negb_true_iff]%andb_true_iff.
      by apply bool_decide_eq_false in Hmsg.
Qed.

(** ** What embedding changes *)

Lemma setitem_wf C a p b x a' :
  wf_image C a → (x < 256)%N → setitem a p b x = Some a' →
  wf_image C a' ∧ length a' = length a.
Proof.
  unfold setitem. intros Ha Hx Hs.
  destruct (a !! p) as [row|] eqn:Hrow; simplify_eq/=.
  destruct (row !! b) as [old|] eqn:Hold; simplify_eq/=.
  destruct (Forall_lookup_1 _ _ _ _ Ha Hrow) as [Hlen Hbytes].
  split; [|by rewrite length_insert].
  apply Forall_insert; [done|]. split; [by rewrite length_insert|].
  by apply Forall_insert.
Qed.

Lemma embed_loop_wf C bits steps :
  ∀ a i a', wf_image C a → Forall (λ s, s.2.2 ≤ B) steps →
  embed_loop bits a i steps = Some a' →
  wf_image C a' ∧ length a' = length a.
Proof.
  induction steps as [|[pix [band lsb]] rest IH]; intros a i a' Ha Hl He;
    cbn [embed_loop] in He.
  - by simplify_eq.
  - destruct (length bits <=? i); [by simplify_eq|].
    destruct (embed_step bits a i pix band lsb) as [a1|] eqn:Hs; [|done].
    cbn [mbind option_bind] in He.
    apply Forall_cons in Hl as [Hl1 Hl]. cbn [snd] in Hl1.
    unfold embed_step in Hs.
    destruct (getitem a pix band) as [v|] eqn:Hv; [|done].
    cbn [mbind option_bind] in Hs.
    apply (setitem_wf C) in Hs as [Ha1 Hlen1]; [|done|].
    + destruct (IH _ _ _ Ha1 Hl He) as [? ?]. split; [done | congruence].
    + apply int2_byte, length_pack; [|done|rewrite length_slice; lia].
      apply length_format_byte. by eapply wf_image_bytes.
Qed.

(** X6. Embedding keeps the shape of the picture and the range of its
    values: the array returned has as many pixels, as many channels in each,
    every value a byte, so that storing it as [uint8] changes no value. *)
Theorem embed_keeps_shape C a alloc pixels bits a' :
  wf_image C a → Forall (λ bl, bl.2 ≤ B) alloc →
  embed a alloc pixels bits = Some a' →
  wf_image C a' ∧ length a' = length a ∧ astype_uint8 a' = a'.
Proof.
  intros Ha Hal He. unfold embed in He.
  destruct (embed_loop_wf C bits (Py.product pixels alloc) a 0 a' Ha)
    as [Ha' Hlen]; [|done|].
  - apply Forall_forall. intros [pix [band lsb]] [_ Hin]%elem_of_product.
    by apply (proj1 (Forall_forall _ _) Hal _ Hin).
  - split_and!; [done..|]. by eapply bytes_astype, wf_image_bytes.
Qed.

Lemma embed_loop_high_bits bits steps :
  ∀ a i a', bytes a → Forall (λ s, s.2.2 ≤ B) steps →
  NoDup (positions steps) →
  embed_loop bits a i steps = Some a' →
  ∀ p b v, getitem a p b = Some v →
  ∃ v', getitem a' p b = Some v'
    ∧ ((p, b) ∉ positions steps → v' = v)
    ∧ (∀ lsb, (p, (b, lsb)) ∈ steps →
         N.shiftr v' (N.of_nat lsb) = N.shiftr v (N.of_nat lsb)).
Proof.
  induction steps as [|[pix [band lsb]] rest IH];
    intros a i a' Hb Hl Hnd He p b v Hv; cbn [embed_loop] in He.
  - simplify_eq. by exists v.
  - destruct (length bits <=? i); [simplify_eq; by exists v|].
    destruct (embed_step bits a i pix band lsb) as [a1|] eqn:Hs; [|done].
    cbn [mbind option_bind] in He.
    apply Forall_cons in Hl as [Hl1 Hl]. cbn [snd] in Hl1.
    change (positions ((pix, (band, lsb)) :: rest))
      with ((pix, band) :: positions rest) in *.
    apply NoDup_cons in Hnd as [Hn Hnd].
    pose proof (embed_step_bytes _ _ _ _ _ _ _ Hb Hl1 Hs) as Hb1.
    apply embed_step_Some in Hs as (v0 & Hv0 & Hget).
    assert (∀ l, (p, (b, l)) ∈ rest → (p, b) ∈ positions rest) as Hpos.
    { intros l Hin. apply list_elem_of_fmap. by exists (p, (b, l)). }
    destruct (decide (p = pix ∧ b = band)) as [[-> ->]|Hne].
    + assert (v0 = v) as -> by congruence.
      destruct (IH a1 _ a' Hb1 Hl Hnd He pix band
                  (Py.int2 (pack (Py.format_b B v) lsb
                              (Py.slice bits i (i + lsb)))))
        as (v' & Hv' & Hsame & _).
      { by rewrite Hget, decide_True. }
      exists v'. split; [done|]. split.
      * intros Hnot. destruct Hnot. by left.
      * intros l [[= ->]|Hin]%elem_of_cons; [|by destruct Hn; eapply Hpos].
        rewrite Hsame by done.
        destruct (pack_fields (Py.format_b B v) lsb
                    (Py.slice bits i (i + lsb))) as [Hhi _];
          [|done|rewrite length_slice; lia|].
        { apply length_format_byte. by eapply Hb. }
        by rewrite Hhi, int2_format_b.
    + destruct (IH a1 _ a' Hb1 Hl Hnd He p b v) as (v' & Hv' & Hsame & Hhi).
      { by rewrite Hget, decide_False. }
      exists v'. split; [done|]. split.
      * intros [_ Hnot]%not_elem_of_cons. by apply Hsame.
      * intros l [[= -> -> ->]|Hin]%elem_of_cons; [by destruct Hne|].
        by apply Hhi.
Qed.

(** X7. Embedding touches nothing but the low-order bits it is allotted: a
    channel of a pixel outside the traversal or of a band outside the
    allocation keeps its value, and a channel of a band allotted [lsb] bits
    keeps all its bits above the [lsb] low-order ones. *)
Theorem embed_changes_low_bits_only C a alloc pixels bits a' :
  wf_image C a → wf_alloc C alloc → NoDup pixels →
  embed a alloc pixels bits = Some a' →
  ∀ p b v, getitem a p b = Some v →
  ∃ v', getitem a' p b = Some v'
    ∧ (p ∉ pixels ∨ b ∉ alloc.*1 → v' = v)
    ∧ (∀ lsb, (b, lsb) ∈ alloc →
         N.shiftr v' (N.of_nat lsb) = N.shiftr v (N.of_nat lsb)).
Proof.
  intros Ha [Hnd Hal] Hpix He p b v Hv. unfold embed in He.
  destruct (embed_loop_high_bits bits (Py.product pixels alloc) a 0 a'
              (wf_image_bytes _ _ Ha)) with (p := p) (b := b) (v := v)
    as (v' & Hv' & Hsame & Hhi); [| |done|done|].
  - apply Forall_forall. intros [pix [band lsb]] [_ Hin]%elem_of_product.
    destruct (proj1 (Forall_forall _ _) Hal _ Hin) as [_ ?].
    cbn [fst snd] in *. lia.
  - rewrite positions_product. by apply NoDup_product.
  - rewrite positions_product in Hsame.
    assert (p ∉ pixels ∨ b ∉ alloc.*1 → v' = v) as Hout.
    { intros Hor. apply Hsame. rewrite elem_of_product. tauto. }
    exists v'. split_and!; [done..|].
    intros lsb Hin. destruct (decide (p ∈ pixels)) as [Hp|Hp].
    + apply Hhi. by apply elem_of_product.
    + by rewrite Hout by (by left).
Qed.

(** ** What extraction returns *)

(** The message the loop returns extends the one it starts from, and none
    of its running messages before the last ends with the delimiter. *)
Lemma extract_loop_no_early DELIMITER steps :
  ∀ a bits msg m, extract_loop DELIMITER a bits msg steps = Some m →
  msg `prefix_of` m
  ∧ ∀ k, length msg ≤ k < length m →
      Py.endswith (take k m) DELIMITER = false.
Proof.
  induction steps as [|[pix [band lsb]] rest IH]; intros a bits msg m He;
    cbn [extract_loop] in He.
  - simplify_eq. split; [done | intros; lia].
  - destruct (Py.endswith msg DELIMITER) eqn:He0.
    { simplify_eq. split; [done | intros; lia]. }
    destruct (getitem a pix band) as [v|]; [|done].
    cbn [mbind option_bind] in He.
    assert (∀ msg', msg `prefix_of` msg' → length msg' ≤ S (length msg) →
      (msg' `prefix_of` m
       ∧ ∀ k, length msg' ≤ k < length m →
           Py.endswith (take k m) DELIMITER = false) →
      msg `prefix_of` m
      ∧ ∀ k, length msg ≤ k < length m →
          Py.endswith (take k m) DELIMITER = false) as Hstep.
    { intros msg' Hpre Hlen [Hpre' Hno]. split; [by etrans|].
      intros k Hk. destruct (decide (k = length msg)) as [->|Hne].
      - destruct (transitivity Hpre Hpre') as [x ->].
        by rewrite take_app_length.
      - apply Hno. lia. }
    destruct (B <=? length (bits ++ low_bits v lsb)).
    + eapply Hstep; [| |by eapply IH].
      * by apply prefix_app_r.
      * rewrite length_app. simpl. lia.
    + eapply Hstep; [| |by eapply IH]; [done | lia].
Qed.

(** On what the loop returns, the test [DELIMITER in message] of the first
    revision and the test [message.endswith(DELIMITER)] of the later one
    say the same. *)
Lemma extract_loop_contains_endswith DELIMITER a steps m :
  extract_loop DELIMITER a [] [] steps = Some m →
  Py.contains m DELIMITER = Py.endswith m DELIMITER.
Proof.
  intros He. destruct (extract_loop_no_early _ _ _ _ _ _ He) as [_ Hno].
  destruct (Py.contains m DELIMITER) eqn:Hc.
  - apply contains_prefix in Hc as (k & Hk & Hend).
    destruct (decide (k = length m)) as [->|Hne].
    + by rewrite take_ge in Hend by lia.
    + rewrite Hno in Hend; [done|]. simpl. lia.
  - destruct (Py.endswith m DELIMITER) eqn:Hend; [|done].
    apply endswith_contains in Hend. congruence.
Qed.

Lemma no_early_contains_take DELIMITER (m : pystr) n :
  (∀ k, k < length m → Py.endswith (take k m) DELIMITER = false) →
  n < length m → Py.contains (take n m) DELIMITER = false.
Proof.
  intros Hno Hn. destruct (Py.contains (take n m) DELIMITER) eqn:Hc; [|done].
  apply contains_prefix in Hc as (k & Hk & Hend).
  rewrite length_take in Hk. rewrite take_take in Hend.
  replace (k `min` n) with k in Hend by lia.
  rewrite Hno in Hend; [done | lia].
Qed.

(** X8. A message returned by the extraction of [decode] never contains the
    delimiter, and framed again it has its only delimiter at the end: what
    [decode] returns is always a message that survives being embedded. *)
Theorem extracted_message_has_no_delimiter DELIMITER a alloc pixels x :
  DELIMITER ≠ [] →
  extract DELIMITER a alloc pixels = Some (Hidden x) →
  Py.contains x DELIMITER = false
  ∧ Py.contains (Py.upto (x ++ DELIMITER) (-1)) DELIMITER = false.
Proof.
  intros HD. unfold extract.
  destruct (extract_loop DELIMITER a [] [] (Py.product pixels alloc))
    as [m|] eqn:He; [|done].
  cbn [mbind option_bind]. rewrite (extract_loop_contains_endswith _ _ _ _ He).
  destruct (Py.endswith m DELIMITER) eqn:Hend; [|done].
  intros [= <-]. rewrite removesuffix_endswith by done.
  destruct (extract_loop_no_early _ _ _ _ _ _ He) as [_ Hno].
  assert (∀ k, k < length m → Py.endswith (take k m) DELIMITER = false)
    as Hno' by (intros k Hk; apply Hno; simpl; lia).
  apply endswith_spec in Hend as [l ->].
  rewrite removesuffix_app, upto_minus_1.
  assert (0 < length DELIMITER) by (destruct DELIMITER; [done | simpl; lia]).
  split.
  - rewrite <- (take_app_length l DELIMITER).
    apply no_early_contains_take; [done|]. rewrite length_app. lia.
  - apply no_early_contains_take; [done|]. rewrite length_app. lia.
Qed.

(** X9. Without brute force, the later revision of [decode], which tests
    [message.endswith(DELIMITER)] after the loop, finds a message exactly
    when the first revision, which tests [DELIMITER not in message], does,
    and the same message; they differ only by the later refusal of a
    message that [nonascii] rejects. *)
Theorem decode_revisions_agree DELIMITER nonascii a alloc pixels :
  decode_search DELIMITER nonascii false a alloc pixels
  = match extract DELIMITER a alloc pixels with
    | None => None
    | Some NoHiddenMessage => Some NotFound
    | Some (Hidden x) =>
        Some (match nonascii (x ++ DELIMITER) with
              | Some char => NotAscii char
              | None => Found x
              end)
    end.
Proof.
  unfold decode_search, extract. cbn [search].
  destruct (extract_loop DELIMITER a [] [] (Py.product pixels alloc))
    as [m|] eqn:He; [|done].
  cbn [mbind option_bind]. rewrite (extract_loop_contains_endswith _ _ _ _ He).
  destruct (Py.endswith m DELIMITER) eqn:Hend; [|done].
  cbn [mbind option_bind]. by rewrite removesuffix_endswith.
Qed.

(** ** The text before the first delimiter *)

Lemma least_true (P : nat → bool) n :
  P n = true →
  ∃ k, k ≤ n ∧ P k = true ∧ ∀ j, j < k → P j = false.
Proof.
  induction n as [n IH] using lt_wf_ind. intros Hn.
  destruct (decide (Exists (λ j, P j = true) (seq 0 n))) as [Hex|Hno].
  - apply Exists_exists in Hex as (j & Hj%elem_of_seq & HPj).
    destruct (IH j ltac:(lia) HPj) as (k & Hk & HPk & Hleast).
    exists k. split_and!; [lia | done..].
  - exists n. split_and!; [done..|]. intros j Hj.
    destruct (P j) eqn:HPj; [|done]. destruct Hno.
    apply Exists_exists. exists j. split; [|done]. apply elem_of_seq. lia.
Qed.

(** A string that ends with the delimiter splits at the first place where a
    delimiter ends. *)
Lemma first_delimiter DELIMITER (s : pystr) :
  Py.endswith s DELIMITER = true →
  ∃ x rest, s = x ++ DELIMITER ++ rest
    ∧ ∀ k, k < length x + length DELIMITER →
        Py.endswith (take k s) DELIMITER = false.
Proof.
  intros Hend.
  destruct (least_true (λ k, Py.endswith (take k s) DELIMITER) (length s))
    as (k & Hk & Hendk & Hleast); [by rewrite take_ge|].
  cbv beta in *. apply endswith_spec in Hendk as [x Hx].
  assert (length x + length DELIMITER = k) as Hlen.
  { apply (f_equal length) in Hx. rewrite length_take, length_app in Hx. lia. }
  exists x, (drop k s). split.
  - by rewrite app_assoc, <- Hx, take_drop.
  - intros j Hj. apply Hleast. lia.
Qed.

Lemma to_bits_app cs cs' : to_bits (cs ++ cs') = to_bits cs ++ to_bits cs'.
Proof. unfold to_bits. apply bind_app. Qed.

(** Embedding a framed message and extracting gives the text before the
    first place where a delimiter ends. *)
Lemma embed_extract_first DELIMITER C a alloc pixels M :
  wf_image C a → wf_alloc C alloc →
  NoDup pixels → Forall (λ p, p < length a) pixels →
  Forall (λ c, (c < 256)%N) (M ++ DELIMITER) →
  B * (length M + length DELIMITER) ≤ length pixels * sum_list (alloc.*2) →
  ∃ a' x rest,
    embed a alloc pixels (to_bits (M ++ DELIMITER)) = Some a'
    ∧ wf_image C a' ∧ length a' = length a
    ∧ extract_loop DELIMITER a' [] [] (Py.product pixels alloc)
      = Some (x ++ DELIMITER)
    ∧ M ++ DELIMITER = x ++ DELIMITER ++ rest
    ∧ ∀ k, k < length x + length DELIMITER →
        Py.endswith (take k (M ++ DELIMITER)) DELIMITER = false.
Proof.
  intros Ha Hal Hnd Hpix Hcs Hcap.
  pose proof (wf_steps_product _ _ _ _ Ha Hal Hpix) as Hw.
  pose proof (wf_image_bytes _ _ Ha) as Hb.
  assert (NoDup (positions (Py.product pixels alloc))) as Hpos.
  { rewrite positions_product. apply NoDup_product; [done | apply Hal]. }
  destruct (embed_loop_is_Some (to_bits (M ++ DELIMITER)) _ a 0 Hw)
    as [a' Ha'].
  destruct (embed_loop_wf C (to_bits (M ++ DELIMITER))
              (Py.product pixels alloc) a 0 a' Ha) as (Hwf' & Hlen');
    [|done|].
  { eapply Forall_impl; [exact Hw|]. intros s [_ ?]. lia. }
  destruct (first_delimiter DELIMITER (M ++ DELIMITER))
    as (x & rest & Hsplit & Hleast); [apply endswith_spec; eauto|].
  exists a', x, rest. split_and!; [done..| |done|done].
  destruct (embed_loop_read _ _ _ _ _ Hw Hpos Hb Ha') as [g Hg].
  rewrite drop_0, take_ge in Hg.
  2:{ rewrite length_to_bits, total_bits_product, length_app by done. lia. }
  rewrite Hsplit, app_assoc, to_bits_app, <- app_assoc in Hg.
  rewrite Hsplit, app_assoc in Hcs. apply Forall_app in Hcs as [Hcs _].
  change (Some (x ++ DELIMITER)) with (Some ([] ++ (x ++ DELIMITER))).
  apply (extract_loop_stream DELIMITER _ a' [] [] (x ++ DELIMITER)
           (to_bits rest ++ g)).
  - eapply wf_steps_dom; [|exact Hw]. by eapply embed_loop_dom.
  - by eapply wf_image_bytes.
  - unfold B. simpl. lia.
  - done.
  - done.
  - intros k Hk. rewrite app_nil_l, length_app in *.
    specialize (Hleast k Hk). rewrite Hsplit, app_assoc in Hleast.
    by rewrite take_app_le in Hleast by (rewrite length_app; lia).
  - rewrite app_nil_l. apply endswith_spec. eauto.
Qed.

Lemma cut_at_first_delimiter DELIMITER (M x rest : pystr) :
  M ++ DELIMITER = x ++ DELIMITER ++ rest →
  (∀ k, k < length x + length DELIMITER →
     Py.endswith (take k (M ++ DELIMITER)) DELIMITER = false) →
  Py.contains M DELIMITER = true → ∃ lost, M = x ++ DELIMITER ++ lost.
Proof.
  intros Hsplit Hleast (l1 & l2 & HM)%contains_spec.
  destruct (decide (length x ≤ length l1)) as [Hle|Hgt].
  - exists (drop (length x + length DELIMITER) M).
    rewrite app_assoc.
    rewrite <- (take_drop (length x + length DELIMITER) M) at 1.
    f_equal. apply (f_equal (take (length x + length DELIMITER))) in Hsplit.
    rewrite app_assoc in Hsplit.
    rewrite (take_app_length' (x ++ DELIMITER)) in Hsplit
      by (by rewrite length_app).
    rewrite <- Hsplit. symmetry. apply take_app_le.
    rewrite HM, !length_app. lia.
  - specialize (Hleast (length l1 + length DELIMITER) ltac:(lia)).
    rewrite HM, <- !app_assoc, (app_assoc l1) in Hleast.
    rewrite take_app_length' in Hleast by (by rewrite length_app).
    assert (Py.endswith (l1 ++ DELIMITER) DELIMITER = true)
      by (apply endswith_spec; eauto).
    congruence.
Qed.

(** X10. Whatever the message, embedding it framed and extracting gives the
    text that precedes the first place where a delimiter ends in the framed
    message; so when the message contains the delimiter, as the warning of
    [encode] says, what is extracted is the message cut where its first
    delimiter starts. *)
Theorem extract_returns_text_before_first_delimiter
    DELIMITER C a alloc pixels M :
  wf_image C a → wf_alloc C alloc →
  NoDup pixels → Forall (λ p, p < length a) pixels →
  Forall (λ c, (c < 256)%N) (M ++ DELIMITER) →
  B * (length M + length DELIMITER) ≤ length pixels * sum_list (alloc.*2) →
  ∃ a' x rest,
    embed a alloc pixels (to_bits (M ++ DELIMITER)) = Some a'
    ∧ extract DELIMITER (astype_uint8 a') alloc pixels = Some (Hidden x)
    ∧ M ++ DELIMITER = x ++ DELIMITER ++ rest
    ∧ (∀ k, k < length x + length DELIMITER →
         Py.endswith (take k (M ++ DELIMITER)) DELIMITER = false)
    ∧ (Py.contains M DELIMITER = true → ∃ lost, M = x ++ DELIMITER ++ lost).
Proof.
  intros Ha Hal Hnd Hpix Hcs Hcap.
  destruct (embed_extract_first DELIMITER C a alloc pixels M)
    as (a' & x & rest & Hemb & Hwf' & _ & Hext & Hsplit & Hleast); try done.
  exists a', x, rest. split_and!; [done| |done|done|].
  - rewrite bytes_astype by (by eapply wf_image_bytes).
    unfold extract. rewrite Hext. cbn [mbind option_bind].
    rewrite endswith_contains by (apply endswith_spec; eauto).
    by rewrite removesuffix_app.
  - by apply (cut_at_first_delimiter DELIMITER M x rest).
Qed.

(** ** Brute force after embedding *)

Lemma extract_loop_is_Some DELIMITER steps :
  ∀ a bits msg, wf_steps a steps →
  is_Some (extract_loop DELIMITER a bits msg steps).
Proof.
  induction steps as [|[pix [band lsb]] rest IH]; intros a bits msg Hw;
    cbn [extract_loop]; [eauto|].
  destruct (Py.endswith msg DELIMITER); [eauto|].
  apply Forall_cons in Hw as [[[v Hv] _] Hw]. cbn [fst snd] in Hv.
  rewrite Hv. cbn [mbind option_bind].
  destruct (B <=? length (bits ++ low_bits v lsb)); by apply IH.
Qed.

(** When no candidate raises and some candidate yields a message ending
    with the delimiter, the search stops at the first such candidate, which
    is that one or one tried before it. *)
Lemma search_split DELIMITER a pixels candidates :
  (∀ c, c ∈ candidates →
     is_Some (extract_loop DELIMITER a [] [] (Py.product pixels c))) →
  ∀ c0 m0, c0 ∈ candidates →
    extract_loop DELIMITER a [] [] (Py.product pixels c0) = Some m0 →
    Py.endswith m0 DELIMITER = true →
    ∃ tried c m later,
      candidates = tried ++ c :: later
      ∧ c0 ∈ c :: later
      ∧ (∀ c', c' ∈ tried →
           ∃ m', extract_loop DELIMITER a [] [] (Py.product pixels c')
                 = Some m'
                 ∧ Py.endswith m' DELIMITER = false)
      ∧ extract_loop DELIMITER a [] [] (Py.product pixels c) = Some m
      ∧ Py.endswith m DELIMITER = true
      ∧ search DELIMITER a pixels candidates = Some (Some (c, m)).
Proof.
  induction candidates as [|c1 rest IH]; intros Hall c0 m0 Hc He Hend.
  - by apply elem_of_nil in Hc.
  - destruct (Hall c1) as [m1 Hm1]; [by left|].
    destruct (Py.endswith m1 DELIMITER) eqn:Hend1.
    + exists [], c1, m1, rest. split_and!; try done.
      * intros c' Hc'. by apply elem_of_nil in Hc'.
      * cbn [search]. rewrite Hm1. cbn [mbind option_bind].
        by rewrite Hend1.
    + apply elem_of_cons in Hc as [->|Hc]; [congruence|].
      destruct (IH (λ c' Hc', Hall c' (list_elem_of_further _ _ _ Hc'))
                  c0 m0 Hc He Hend)
        as (tried & c & m & later & -> & Hin & Htried & Hm & Hendm & Hs).
      exists (c1 :: tried), c, m, later. split_and!; try done.
      * intros c' [->|Hc']%elem_of_cons; [eauto | by apply Htried].
      * cbn [search]. rewrite Hm1. cbn [mbind option_bind].
        by rewrite Hend1.
Qed.

Lemma wf_alloc_mono C C' alloc :
  C ≤ C' → wf_alloc C alloc → wf_alloc C' alloc.
Proof.
  intros HC [Hnd Hal]. split; [done|].
  eapply Forall_impl; [exact Hal|]. intros bl [? ?]. split; [lia | done].
Qed.

Lemma possibilities_wf c : c ∈ possibilities → wf_alloc RGB c.
Proof.
  intros (r & g & b & Hr & Hg & Hb & ->)%elem_of_possibilities.
  apply (wf_alloc_scales [r; g; b]). unfold B.
  by repeat (apply Forall_cons; split; [done|]).
Qed.

(** X11. After a message is embedded under an allocation the three scales
    can give, on a picture of at least three bands, the brute-force search
    raises on no candidate and never ends on "no hidden message found": it
    stops at the first candidate, in the order of [possibilities], whose
    extraction ends with the delimiter.  That candidate is the allocation
    used for embedding or one tried before it; the message returned is the
    embedded text, cut at its first delimiter, when it is the allocation
    used, and the string the earlier candidate happens to read
    otherwise. *)
Theorem brute_force_stops_at_first_candidate
    DELIMITER nonascii C a scales pixels M :
  RGB ≤ C → wf_image C a →
  NoDup pixels → Forall (λ p, p < length a) pixels →
  length scales = RGB → Forall (λ n, n ≤ B) scales →
  ¬ Forall (λ n, n = 0) scales →
  Forall (λ c, (c < 256)%N) (M ++ DELIMITER) →
  B * (length M + length DELIMITER) ≤ length pixels * sum_list scales →
  let alloc := scales_band_lsb scales None in
  ∃ a' x rest,
    embed a alloc pixels (to_bits (M ++ DELIMITER)) = Some a'
    ∧ M ++ DELIMITER = x ++ DELIMITER ++ rest
    ∧ (∀ k, k < length x + length DELIMITER →
         Py.endswith (take k (M ++ DELIMITER)) DELIMITER = false)
    ∧ extract_loop DELIMITER (astype_uint8 a') [] []
        (Py.product pixels alloc) = Some (x ++ DELIMITER)
    ∧ ∃ tried c m later,
        possibilities = tried ++ c :: later
        ∧ alloc ∈ c :: later
        ∧ (alloc ∉ tried)
        ∧ (∀ c', c' ∈ tried →
             ∃ m', extract_loop DELIMITER (astype_uint8 a') [] []
                     (Py.product pixels c') = Some m'
                   ∧ Py.endswith m' DELIMITER = false)
        ∧ extract_loop DELIMITER (astype_uint8 a') [] []
            (Py.product pixels c) = Some m
        ∧ Py.endswith m DELIMITER = true
        ∧ (c = alloc → m = x ++ DELIMITER)
        ∧ decode_search DELIMITER nonascii true (astype_uint8 a') alloc
            pixels
          = Some (match nonascii m with
                  | Some char => NotAscii char
                  | None => Found (Py.removesuffix m DELIMITER)
                  end).
Proof.
  intros HC Ha Hnd Hpix Hlen HB Hnz Hcs Hcap alloc.
  assert (wf_alloc RGB alloc) as Hal
    by (rewrite <- Hlen; by apply wf_alloc_scales).
  assert (sum_list (alloc.*2) = sum_list scales) as Hsum
    by (by apply sum_filter_imap).
  destruct (embed_extract_first DELIMITER C a alloc pixels M)
    as (a' & x & rest & Hemb & Hwf' & Hlen' & Hext & Hsplit & Hleast);
    try done.
  { by apply (wf_alloc_mono RGB). }
  { by rewrite Hsum. }
  exists a', x, rest.
  rewrite bytes_astype by (by eapply wf_image_bytes).
  split_and!; [done..|].
  assert (Py.endswith (x ++ DELIMITER) DELIMITER = true) as Hend
    by (apply endswith_spec; eauto).
  destruct (search_split DELIMITER a' pixels possibilities)
    with (c0 := alloc) (m0 := x ++ DELIMITER)
    as (tried & c & m & later & Hposs & Hin & Htried & Hm & Hendm & Hsearch).
  - intros c Hc. apply extract_loop_is_Some.
    apply (wf_steps_product C); [done| |by rewrite Hlen'].
    by apply (wf_alloc_mono RGB), possibilities_wf.
  - apply elem_of_possibilities.
    destruct scales as [|r [|g [|b [|? ?]]]]; try done.
    apply Forall_cons in HB as [Hr HB]. apply Forall_cons in HB as [Hg HB].
    apply Forall_cons in HB as [Hb _]. unfold B in *. by exists r, g, b.
  - done.
  - done.
  - exists tried, c, m, later. split_and!; try done.
    + intros (m' & Hm' & Hend')%Htried. congruence.
    + intros ->. congruence.
    + unfold decode_search. rewrite Hsearch. by cbn [mbind option_bind].
Qed.

(** The candidate that stops the search need not be the allocation used:
    "HI#" embedded in the four-pixel picture on 3 bits of band 0 and the 8
    bits of band 2 is decoded by brute force as another text, read by an
    earlier candidate. *)
Lemma brute_force_may_return_another_text :
  decode_search (str "#") (λ _, None) true stego_4 [(0, 3); (2, 8)] (seq 0 4)
  = Some (Found [24; 65]%N)
  ∧ decode_search (str "#") (λ _, None) false stego_4 [(0, 3); (2, 8)]
      (seq 0 4)
    = Some (Found (str "HI")).
Proof. split; by vm_compute. Qed.

(** ** Encoding, then decoding the saved picture *)

(** X12. End to end: when [encode] is given a printable text whose
    ciphertext is made of byte characters, has no delimiter ending before
    the end of its framing and is within the limit stored by [refresh], it
    saves a picture and reports success; and [decode], run with the same
    cipher, seed and control variables on that picture opened in place of
    the original, writes exactly the text that was given. *)
Theorem encode_then_decode DELIMITER HILL shuffle C e w ci :
  (∀ s l, l ≡ₚ shuffle s l) →
  wf_image C (imagedata (picture w)) →
  length (imagedata (picture w)) = pixel (picture w) →
  wf_alloc C (band_lsb (globals w)) →
  ch_limit (globals w)
  = limit_of DELIMITER (pixel (picture w)) (band_lsb (globals w)) →
  cipher e = Some ci → output e = File → writable e = true →
  Forall (λ c, c ∈ Py.printable) (text e) →
  Forall (λ c, (c < 256)%N) (encrypt ci (text e) ++ DELIMITER) →
  Py.contains (Py.upto (encrypt ci (text e) ++ DELIMITER) (-1)) DELIMITER
  = false →
  (Z.of_nat (length (encrypt ci (text e))) ≤ ch_limit (globals w))%Z →
  decrypt ci (encrypt ci (text e)) = text e →
  ∃ a',
    stego (encode DELIMITER HILL shuffle e w) = Some a'
    ∧ last (shown (encode DELIMITER HILL shuffle e w)) = Some InfoEncoded
    ∧ let w' :=
        opened {| pixel := pixel (picture w); imagedata := a' |} (globals w)
          (encode DELIMITER HILL shuffle e w) in
      decoded (decode DELIMITER shuffle e w') = Some (text e)
      ∧ last (shown (decode DELIMITER shuffle e w')) = Some InfoDecoded.
Proof.
  intros Hs Ha HP Hal Hlimit Hci Hout Hwr Hpr Hcs Hfirst Hfit Hinv.
  pose proof (pixels_of_perm shuffle (pixel (picture w)) (seed e) Hs)
    as Hperm.
  destruct (roundtrip_pixels DELIMITER C (imagedata (picture w))
              (band_lsb (globals w))
              (pixels_of shuffle (pixel (picture w)) (seed e))
              (encrypt ci (text e)))
    as (a' & Hemb & Hb & Hext); try done.
  { rewrite <- Hperm. apply NoDup_seq. }
  { rewrite <- Hperm. apply Forall_forall. intros p Hp%elem_of_seq. lia. }
  { rewrite <- Hperm, length_seq. apply limit_of_fits. by rewrite <- Hlimit. }
  exists a'.
  assert (encode DELIMITER HILL shuffle e w
          = show InfoEncoded
              (save_stego a'
                 (if Py.contains (text e) DELIMITER
                  then show WarnDelimiter w else w))) as Henc.
  { unfold encode. rewrite first_nonprintable_None, Hci, Hout by done.
    assert ((ch_limit (globals w)
             <? Z.of_nat (length (encrypt ci (text e))))%Z = false) as Hlt
      by (apply Z.ltb_ge; lia).
    destruct (Py.contains (text e) DELIMITER); cbn [picture globals show];
      by rewrite Hlt, andb_false_r, Hemb, Hwr, bytes_astype. }
  rewrite Henc. cbn [stego shown show save_stego]. rewrite last_snoc.
  split; [done|]. split; [done|]. cbv zeta.
  unfold decode, opened. cbn [picture globals pixel imagedata].
  rewrite Hci, Hout, Hext, Hwr. cbn [decoded shown show save_text].
  by rewrite Hinv, last_snoc.
Qed.

(** ** Encoding twice *)

Lemma setitem_same a p b x :
  getitem a p b = Some x → setitem a p b x = Some a.
Proof.
  unfold getitem, setitem. intros Hx.
  destruct (a !! p) as [row|] eqn:Hrow; simplify_eq/=. rewrite Hx. simpl.
  by rewrite (list_insert_id row), list_insert_id.
Qed.

Lemma pack_pack val lsb chunk :
  length val = B → lsb ≤ B → length chunk ≤ lsb →
  pack (pack val lsb chunk) lsb chunk = pack val lsb chunk.
Proof.
  intros Hval Hl Hc. rewrite !pack_take_drop by done.
  rewrite take_app_length' by (rewrite length_take; lia).
  do 2 f_equal. rewrite app_assoc.
  apply drop_app_length'. rewrite length_app, length_take. lia.
Qed.

Lemma embed_loop_idem bits steps :
  ∀ a i a', bytes a → Forall (λ s, s.2.2 ≤ B) steps →
  NoDup (positions steps) →
  embed_loop bits a i steps = Some a' → embed_loop bits a' i steps = Some a'.
Proof.
  induction steps as [|[pix [band lsb]] rest IH]; intros a i a' Hb Hl Hnd He;
    cbn [embed_loop] in *; [done|].
  destruct (length bits <=? i); [done|].
  destruct (embed_step bits a i pix band lsb) as [a1|] eqn:Hs; [|done].
  cbn [mbind option_bind] in He.
  apply Forall_cons in Hl as [Hl1 Hl]. cbn [snd] in Hl1.
  change (positions ((pix, (band, lsb)) :: rest))
    with ((pix, band) :: positions rest) in Hnd.
  apply NoDup_cons in Hnd as [Hn Hnd].
  pose proof (embed_step_bytes _ _ _ _ _ _ _ Hb Hl1 Hs) as Hb1.
  apply embed_step_Some in Hs as (v & Hv & Hget).
  assert (getitem a' pix band
          = Some (Py.int2 (pack (Py.format_b B v) lsb
                             (Py.slice bits i (i + lsb))))) as Hget'.
  { rewrite (embed_loop_frame _ _ _ _ _ He) by done.
    by rewrite Hget, decide_True. }
  assert (length (Py.format_b B v) = B) as Hval
    by (apply length_format_byte; by eapply Hb).
  assert (length (Py.slice bits i (i + lsb)) ≤ lsb) as Hchunk
    by (rewrite length_slice; lia).
  unfold embed_step. rewrite Hget'. cbn [mbind option_bind].
  rewrite format_byte_int2 by (by apply length_pack).
  rewrite pack_pack by done. rewrite (setitem_same _ _ _ _ Hget').
  cbn [mbind option_bind]. by apply (IH a1).
Qed.

(** X13. Embedding is idempotent: embedding the same bits, with the same
    allocation and pixel order, into the picture just produced gives that
    picture again. *)
Theorem embed_idempotent C a alloc pixels bits a' :
  wf_image C a → wf_alloc C alloc → NoDup pixels →
  embed a alloc pixels bits = Some a' →
  embed a' alloc pixels bits = Some a'.
Proof.
  intros Ha [Hnd Hal] Hpix He. unfold embed in *.
  apply (embed_loop_idem _ _ a); [by eapply wf_image_bytes| | |done].
  - apply Forall_forall. intros [pix [band lsb]] [_ Hin]%elem_of_product.
    destruct (proj1 (Forall_forall _ _) Hal _ Hin) as [_ ?].
    cbn [fst snd] in *. lia.
  - rewrite positions_product. by apply NoDup_product.
Qed.

(** ** Indexing outside the picture *)

(** X14. On a picture of [C] channels per pixel, embedding and extraction
    with an allocation over bands below [C] and pixels of the picture never
    raise; with a first band of index [C] or more and something to embed,
    the first step raises [IndexError], in [encode] and, the delimiter not
    being empty, in [decode]. *)
Theorem index_error_behaviour DELIMITER C a :
  wf_image C a →
  (∀ alloc pixels bits,
     wf_alloc C alloc → Forall (λ p, p < length a) pixels →
     is_Some (embed a alloc pixels bits)
     ∧ is_Some (extract DELIMITER a alloc pixels))
  ∧ (∀ band lsb alloc p pixels bits,
       C ≤ band → p < length a → bits ≠ [] →
       embed a ((band, lsb) :: alloc) (p :: pixels) bits = None
       ∧ (DELIMITER ≠ [] →
          extract DELIMITER a ((band, lsb) :: alloc) (p :: pixels) = None)).
Proof.
  intros Ha. split.
  - intros alloc pixels bits Hal Hpix.
    pose proof (wf_steps_product _ _ _ _ Ha Hal Hpix) as Hw. split.
    + by apply embed_loop_is_Some.
    + unfold extract.
      destruct (extract_loop_is_Some DELIMITER _ a [] [] Hw) as [m ->].
      cbn [mbind option_bind]. eauto.
  - intros band lsb alloc p pixels bits Hband Hp Hbits.
    assert (getitem a p band = None) as Hnone.
    { unfold getitem. destruct (a !! p) as [row|] eqn:Hrow; [|done].
      cbn [mbind option_bind]. apply lookup_ge_None.
      destruct (Forall_lookup_1 _ _ _ _ Ha Hrow) as [-> _]. done. }
    split.
    + unfold embed. rewrite product_cons, fmap_cons.
      cbn [app embed_loop].
      destruct (Nat.leb_spec (length bits) 0) as [Hl|_].
      * destruct bits; [done | simpl in Hl; lia].
      * unfold embed_step. by rewrite Hnone.
    + intros HD. unfold extract. rewrite product_cons, fmap_cons.
      cbn [app extract_loop].
      replace (Py.endswith [] DELIMITER) with false
        by (destruct DELIMITER; done).
      by rewrite Hnone.
Qed.

(** ** The candidates of the search *)

(** X15. The brute-force search tries no allocation twice, and each of its
    candidates is a well-formed allocation over the three bands: distinct
    bands in increasing order of index, each with 1 to 8 bits. *)
Theorem possibilities_distinct_well_formed :
  NoDup possibilities
  ∧ ∀ c, c ∈ possibilities →
      wf_alloc RGB c ∧ c.*1 `sublist_of` seq 0 RGB.
Proof.
  split.
  - apply (bool_decide_unpack _). by vm_compute.
  - intros c Hc. split; [by apply possibilities_wf|].
    apply elem_of_possibilities in Hc as (r & g & b & _ & _ & _ & ->).
    change (seq 0 RGB) with ([(0, r); (1, g); (2, b)].*1).
    apply fmap_sublist, sublist_filter.
Qed.

(** ** The main window *)

(** X16. On any screen the main window is no larger than the screen and at
    most 1000 by 550, lies within the screen, and is centred to within one
    pixel in each direction. *)
Theorem window_fits_screen SCREEN_W SCREEN_H :
  (0 ≤ SCREEN_W)%Z → (0 ≤ SCREEN_H)%Z →
  let '(W, H, X, Y) := window_geometry SCREEN_W SCREEN_H in
  (W = Z.min SCREEN_W 1000 ∧ H = Z.min SCREEN_H 550
   ∧ 0 ≤ X ∧ X + W ≤ SCREEN_W ∧ 0 ≤ Y ∧ Y + H ≤ SCREEN_H
   ∧ Z.abs (SCREEN_W - W - X - X) ≤ 1
   ∧ Z.abs (SCREEN_H - H - Y - Y) ≤ 1)%Z.
Proof.
  intros HW HH. unfold window_geometry.
  destruct (Z.ltb_spec SCREEN_W 1000), (Z.ltb_spec SCREEN_H 550);
    cbv zeta; Z.div_mod_to_equations; lia.
Qed.

(** ** The open event *)

(** X17. The handlers bound to the open event, run in their order on a
    picture [open_] accepts while some scale is not at 0, leave the state
    [encode] expects: the picture set, a well-formed allocation, the limit
    of that allocation, at least 1, and a message box cut to a prefix
    within the limit; no dialog is shown. *)
Theorem open_event_prepares_encode DELIMITER P data g w :
  is_Some (open_ DELIMITER P data) →
  length (g_scales g) = RGB → Forall (λ n, n ≤ B) (g_scales g) →
  ¬ Forall (λ n, n = 0) (g_scales g) →
  let w' := (open_event DELIMITER P data g w).1 in
  let g' := (open_event DELIMITER P data g w).2 in
  picture w' = {| pixel := P; imagedata := data |}
  ∧ wf_alloc RGB (band_lsb (globals w'))
  ∧ ch_limit (globals w')
    = limit_of DELIMITER P (band_lsb (globals w'))
  ∧ (1 ≤ ch_limit (globals w'))%Z
  ∧ g_message g' `prefix_of` g_message g
  ∧ (Z.of_nat (length (g_message g')) ≤ ch_limit (globals w'))%Z
  ∧ g_scales g' = g_scales g
  ∧ shown w' = shown w.
Proof.
  intros [[pic cap] Hopen] Hlen HB Hnz w' g'. subst w' g'.
  unfold open_event. rewrite Hopen. cbn [fst snd].
  unfold open_ in Hopen.
  destruct (Nat.ltb_spec P (min_pix DELIMITER)) as [|HP]; [done|].
  injection Hopen as <- _.
  unfold refresh_event, opened, refresh, scales_band_lsb.
  cbn [r_globals r_gui picture globals shown band_lsb ch_limit g_message
       g_scales].
  set (alloc := filter (λ bl, bl.2 ≠ 0) (imap pair (g_scales g))).
  assert (1 ≤ limit_of DELIMITER P alloc)%Z as Hlimit.
  { apply limit_of_ge_1. unfold alloc. rewrite sum_filter_imap by done.
    pose proof (sum_list_positive _ Hnz). unfold min_pix in HP. nia. }
  split_and!; try done.
  - rewrite <- Hlen. by apply wf_alloc_scales.
  - destruct (_ <? _)%Z; [|done]. rewrite upto_nonneg by lia.
    apply prefix_take.
  - destruct (Z.ltb_spec (limit_of DELIMITER P alloc)
                (Z.of_nat (length (g_message g)))); [|done].
    rewrite upto_nonneg, length_take by lia. lia.
Qed.

(** ** The title of the window *)

Lemma rstrip_snoc c s : rstrip c (s ++ [c]) = rstrip c s.
Proof.
  induction s as [|x s IH].
  - simpl. by rewrite N.eqb_refl.
  - cbn [app rstrip]. by rewrite IH.
Qed.

Lemma rstrip_replicate c s n : rstrip c (s ++ replicate n c) = rstrip c s.
Proof.
  induction n as [|n IH]; [by rewrite app_nil_r|].
  by rewrite replicate_S_end, app_assoc, rstrip_snoc.
Qed.

Lemma rstrip_last c s : last (rstrip c s) ≠ Some c.
Proof.
  induction s as [|x s IH]; [done|]. cbn [rstrip].
  destruct (rstrip c s) as [|y r].
  - destruct (N.eqb_spec x c); [done|]. simpl. congruence.
  - done.
Qed.

Lemma rstrip_id c s : last s ≠ Some c → rstrip c s = s.
Proof.
  induction s as [|x s IH]; [done|]. intros Hl. cbn [rstrip].
  destruct s as [|y s].
  - simpl in *. destruct (N.eqb_spec x c); congruence.
  - by rewrite IH.
Qed.

Lemma rstrip_spec c s : ∃ n, s = rstrip c s ++ replicate n c.
Proof.
  induction s as [|x s [n IH]]; [by exists 0|]. cbn [rstrip].
  destruct (rstrip c s) as [|y r].
  - destruct (N.eqb_spec x c) as [->|_].
    + exists (S n). by rewrite IH at 1.
    + exists n. by rewrite IH at 1.
  - exists n. by rewrite IH at 1.
Qed.

(** X18. The star that marks a picture opened and not yet saved: opening
    puts exactly one star at the end of the title however many there were,
    saving removes every trailing star, and neither touches the rest of the
    title; a title that did not end with a star is back as it was once the
    file is saved. *)
Theorem title_star_marks_unsaved (title : pystr) :
  (∃ n, title = title_saved title ++ replicate n 42%N)
  ∧ last (title_saved title) ≠ Some 42%N
  ∧ title_opened title = title_saved title ++ str "*"
  ∧ title_saved (title_opened title) = title_saved title
  ∧ title_opened (title_opened title) = title_opened title
  ∧ title_opened (title_saved title) = title_opened title
  ∧ title_saved (title_saved title) = title_saved title
  ∧ (last title ≠ Some 42%N → title_saved (title_opened title) = title).
Proof.
  unfold title_opened, title_saved.
  change (str "*") with [42%N].
  assert (rstrip 42 (rstrip 42 title) = rstrip 42 title) as Hidem
    by apply rstrip_id, rstrip_last.
  split_and!.
  - apply rstrip_spec.
  - apply rstrip_last.
  - done.
  - by rewrite rstrip_snoc.
  - by rewrite rstrip_snoc, Hidem.
  - by rewrite Hidem.
  - done.
  - intros Hl. rewrite rstrip_snoc, Hidem. by apply rstrip_id.
Qed.

(** ** The latest version *)

Lemma rpartition_notin c s : c ∉ s → rpartition c s = ([], [], s).
Proof.
  induction s as [|x s IH]; [done|].
  intros [Hx Hs]%not_elem_of_cons. cbn [rpartition]. rewrite IH by done.
  destruct (N.eqb_spec x c); congruence.
Qed.

Lemma rpartition_last c h t :
  c ∉ t → rpartition c (h ++ c :: t) = (h, [c], t).
Proof.
  intros Ht. induction h as [|x h IH].
  - cbn [app rpartition]. rewrite rpartition_notin by done.
    by rewrite N.eqb_refl.
  - cbn [app rpartition]. by rewrite IH.
Qed.

Lemma rpartition_join c s :
  (rpartition c s).1.1 ++ (rpartition c s).1.2 ++ (rpartition c s).2 = s
  ∧ (c ∉ (rpartition c s).2)
  ∧ ((rpartition c s).1.2 = [] → (rpartition c s).1.1 = []).
Proof.
  induction s as [|x s (IH1 & IH2 & IH3)];
    [split_and!; [done | apply not_elem_of_nil | done]|].
  cbn [rpartition]. destruct (rpartition c s) as [[h sep] t].
  cbn [fst snd] in *. destruct sep as [|y sep].
  - rewrite IH3 in IH1 by done. simpl in IH1. subst t.
    destruct (N.eqb_spec x c) as [->|Hx]; cbn [fst snd app]; [done|].
    split_and!; [done| |done].
    apply not_elem_of_cons. split; [congruence | done].
  - cbn [fst snd]. split_and!; [|done..]. by rewrite <- IH1.
Qed.

(** X19. The version [check_for_updates] compares with its own is the last
    segment of the path of the answered URL, trailing slashes ignored: it
    holds no slash, it ends the path stripped of its trailing slashes, it is
    the whole of a path without slash, and the text after the last slash
    that is followed by anything else. *)
Theorem latest_is_last_segment :
  (∀ path, (47%N ∉ latest path)
           ∧ latest path `suffix_of` rstrip 47%N path)
  ∧ (∀ seg n, 47%N ∉ seg → latest (seg ++ replicate n 47%N) = seg)
  ∧ (∀ dir seg n, seg ≠ [] → 47%N ∉ seg →
       latest (dir ++ [47%N] ++ seg ++ replicate n 47%N) = seg).
Proof.
  assert (∀ seg : pystr, 47%N ∉ seg → last seg ≠ Some 47%N) as Hlast.
  { intros seg Hseg Hl. apply Hseg. apply last_Some in Hl as [l' ->].
    apply elem_of_app. right. by left. }
  unfold latest. split_and!.
  - intros path. destruct (rpartition_join 47%N (rstrip 47%N path))
      as (Hjoin & Hnot & _).
    split; [done|]. rewrite <- Hjoin at 2. rewrite app_assoc.
    by eexists.
  - intros seg n Hseg. rewrite rstrip_replicate, rstrip_id by auto.
    by rewrite rpartition_notin.
  - intros dir seg n Hne Hseg.
    rewrite !app_assoc, rstrip_replicate, <- app_assoc.
    rewrite rstrip_id.
    + cbn [app]. by rewrite rpartition_last.
    + rewrite last_app. destruct (last ([47%N] ++ seg)) eqn:Hl.
      * destruct seg as [|y seg]; [done|].
        change (last ([47%N] ++ y :: seg)) with (last (y :: seg)) in Hl.
        intros ?. apply (Hlast (y :: seg) Hseg). congruence.
      * by apply last_None in Hl.
Qed.

(** ** The delimiter warning of [encode] *)

(** X20. [encode] looks for the delimiter in the text as typed, not in the
    ciphertext it embeds.  For a printable text without the delimiter it
    shows no warning, saves the picture and reports success, whatever the
    ciphertext; [decode] on the saved picture then writes the decryption of
    [x], the part of the ciphertext that precedes the first place where a
    delimiter ends in the framed ciphertext, which is the ciphertext cut
    where its first delimiter starts when it contains one. *)
Theorem encode_warns_on_plaintext_only DELIMITER HILL shuffle C e w ci :
  (∀ s l, l ≡ₚ shuffle s l) →
  wf_image C (imagedata (picture w)) →
  length (imagedata (picture w)) = pixel (picture w) →
  wf_alloc C (band_lsb (globals w)) →
  ch_limit (globals w)
  = limit_of DELIMITER (pixel (picture w)) (band_lsb (globals w)) →
  cipher e = Some ci → output e = File → writable e = true →
  Forall (λ c, c ∈ Py.printable) (text e) →
  Py.contains (text e) DELIMITER = false →
  Forall (λ c, (c < 256)%N) (encrypt ci (text e) ++ DELIMITER) →
  (Z.of_nat (length (encrypt ci (text e))) ≤ ch_limit (globals w))%Z →
  ∃ a' x rest,
    shown (encode DELIMITER HILL shuffle e w) = shown w ++ [InfoEncoded]
    ∧ stego (encode DELIMITER HILL shuffle e w) = Some a'
    ∧ encrypt ci (text e) ++ DELIMITER = x ++ DELIMITER ++ rest
    ∧ (∀ k, k < length x + length DELIMITER →
         Py.endswith (take k (encrypt ci (text e) ++ DELIMITER)) DELIMITER
         = false)
    ∧ (Py.contains (encrypt ci (text e)) DELIMITER = true →
       ∃ lost, encrypt ci (text e) = x ++ DELIMITER ++ lost)
    ∧ let w' :=
        opened {| pixel := pixel (picture w); imagedata := a' |} (globals w)
          (encode DELIMITER HILL shuffle e w) in
      decoded (decode DELIMITER shuffle e w') = Some (decrypt ci x)
      ∧ last (shown (decode DELIMITER shuffle e w')) = Some InfoDecoded.
Proof.
  intros Hs Ha HP Hal Hlimit Hci Hout Hwr Hpr Hplain Hcs Hfit.
  pose proof (pixels_of_perm shuffle (pixel (picture w)) (seed e) Hs)
    as Hperm.
  destruct (embed_extract_first DELIMITER C (imagedata (picture w))
              (band_lsb (globals w))
              (pixels_of shuffle (pixel (picture w)) (seed e))
              (encrypt ci (text e)))
    as (a' & x & rest & Hemb & Hwf' & _ & Hext & Hsplit & Hleast); try done.
  { rewrite <- Hperm. apply NoDup_seq. }
  { rewrite <- Hperm. apply Forall_forall. intros p Hp%elem_of_seq. lia. }
  { rewrite <- Hperm, length_seq. apply limit_of_fits. by rewrite <- Hlimit. }
  exists a', x, rest.
  assert (encode DELIMITER HILL shuffle e w
          = show InfoEncoded (save_stego a' w)) as Henc.
  { unfold encode. rewrite first_nonprintable_None, Hci, Hout, Hplain by done.
    replace (ch_limit (globals w) <? Z.of_nat (length (encrypt ci (text e))))%Z
      with false by (symmetry; apply Z.ltb_ge; lia).
    rewrite andb_false_r, Hemb, Hwr, bytes_astype; [done|].
    by eapply wf_image_bytes. }
  rewrite Henc. cbn [stego shown show save_stego].
  split; [done|]. split; [done|]. split; [done|]. split; [done|]. split.
  - by apply (cut_at_first_delimiter _ _ _ rest).
  - cbv zeta. unfold decode, opened, extract.
    cbn [picture globals pixel imagedata].
    rewrite Hci, Hout, Hext. cbn [mbind option_bind].
    rewrite endswith_contains by (apply endswith_spec; eauto).
    rewrite removesuffix_app, Hwr. cbn [decoded shown show save_text].
    by rewrite last_snoc.
Qed.

(** ** Instances of the further properties *)

Lemma refresh_limit_monotone_witness :
  Z.le (ch_limit (refresh (str "#") 100 [1; 0; 0] None))
       (ch_limit (refresh (str "#") 120 [1; 2; 0] None)).
Proof.
  apply refresh_limit_monotone.
  - apply Nat.leb_le. by vm_compute.
  - apply (bool_decide_unpack _). by vm_compute.
Defined.

Lemma refresh_event_allocation_witness :
  let r := refresh_event (str "#") 100 (Scale 1) gui_zero in
  band_lsb (r_globals r)
  = filter (λ bl, bl.2 ≠ 0) (imap pair (g_scales (r_gui r)))
  ∧ band_lsb (r_globals r) ≠ [].
Proof.
  destruct (refresh_event_allocation (str "#") 100 (Scale 1) gui_zero)
    as (Heq & _ & Hne).
  - intros k [= <-]. simpl. lia.
  - split; [exact Heq|]. apply Hne. left. by exists 1.
Defined.

Lemma refresh_event_text_fits_witness :
  let r := refresh_event (str "#") 100 Other gui_long in
  (1 ≤ ch_limit (r_globals r))%Z
  ∧ g_message (r_gui r) `prefix_of` g_message gui_long
  ∧ (Z.of_nat (length (g_message (r_gui r))) ≤ ch_limit (r_globals r))%Z.
Proof.
  destruct (refresh_event_text_fits (str "#") 100 Other gui_long)
    as (H1 & H2 & H3 & _).
  - apply Nat.leb_le. by vm_compute.
  - by vm_compute.
  - by split_and!.
Defined.

Lemma embed_keeps_shape_witness :
  wf_image 3 stego_4 ∧ length stego_4 = length picture_4
  ∧ astype_uint8 stego_4 = stego_4.
Proof.
  apply (embed_keeps_shape 3 picture_4 [(0, 3); (2, 8)] (seq 0 4)
           (to_bits (str "HI#"))).
  - apply (bool_decide_unpack _). by vm_compute.
  - apply (bool_decide_unpack _). by vm_compute.
  - by vm_compute.
Defined.

Lemma embed_changes_low_bits_only_witness :
  ∃ v', getitem stego_4 0 0 = Some v'
    ∧ N.shiftr v' (N.of_nat 3) = N.shiftr 200 (N.of_nat 3).
Proof.
  destruct (embed_changes_low_bits_only 3 picture_4 [(0, 3); (2, 8)]
              (seq 0 4) (to_bits (str "HI#")) stego_4) with
    (p := 0) (b := 0) (v := 200%N) as (v' & Hv' & _ & Hhi).
  - apply (bool_decide_unpack _). by vm_compute.
  - apply (bool_decide_unpack _). by vm_compute.
  - apply (bool_decide_unpack _). by vm_compute.
  - by vm_compute.
  - reflexivity.
  - exists v'. split; [exact Hv'|]. apply Hhi.
    apply (bool_decide_unpack _). by vm_compute.
Defined.

Lemma extracted_message_has_no_delimiter_witness :
  Py.contains (str "HI") (str "#") = false
  ∧ Py.contains (Py.upto (str "HI" ++ str "#") (-1)) (str "#") = false.
Proof.
  apply (extracted_message_has_no_delimiter (str "#") stego_4
           [(0, 3); (2, 8)] (seq 0 4)).
  - by vm_compute.
  - by vm_compute.
Defined.

Lemma extract_returns_text_before_first_delimiter_witness :
  ∃ a' x rest,
    embed picture_100 [(0, 1)] (seq 0 100) (to_bits (str "A#B" ++ str "#"))
    = Some a'
    ∧ extract (str "#") (astype_uint8 a') [(0, 1)] (seq 0 100)
      = Some (Hidden x)
    ∧ str "A#B" ++ str "#" = x ++ str "#" ++ rest.
Proof.
  destruct (extract_returns_text_before_first_delimiter (str "#") 3
              picture_100 [(0, 1)] (seq 0 100) (str "A#B"))
    as (a' & x & rest & Hemb & Hext & Hsplit & _).
  - apply (bool_decide_unpack _). by vm_compute.
  - apply (bool_decide_unpack _). by vm_compute.
  - apply (bool_decide_unpack _). by vm_compute.
  - apply (bool_decide_unpack _). by vm_compute.
  - apply (bool_decide_unpack _). by vm_compute.
  - apply Nat.leb_le. by vm_compute.
  - by exists a', x, rest.
Defined.

Lemma brute_force_stops_at_first_candidate_witness :
  ∃ a' c m,
    embed picture_4 (scales_band_lsb [3; 0; 8] None) (seq 0 4)
      (to_bits (str "HI" ++ str "#")) = Some a'
    ∧ c ∈ possibilities
    ∧ extract_loop (str "#") (astype_uint8 a') [] []
        (Py.product (seq 0 4) c) = Some m
    ∧ Py.endswith m (str "#") = true
    ∧ decode_search (str "#") (λ _, None) true (astype_uint8 a')
        (scales_band_lsb [3; 0; 8] None) (seq 0 4)
      = Some (Found (Py.removesuffix m (str "#"))).
Proof.
  destruct (brute_force_stops_at_first_candidate (str "#") (λ _, None) 3
              picture_4 [3; 0; 8] (seq 0 4) (str "HI"))
    as (a' & x & rest & Hemb & _ & _ & _ & tried & c & m & later
        & Hposs & _ & _ & _ & Hm & Hend & _ & Hdec).
  - apply Nat.leb_le. by vm_compute.
  - apply (bool_decide_unpack _). by vm_compute.
  - apply (bool_decide_unpack _). by vm_compute.
  - apply (bool_decide_unpack _). by vm_compute.
  - reflexivity.
  - apply (bool_decide_unpack _). by vm_compute.
  - apply (bool_decide_unpack _). by vm_compute.
  - apply (bool_decide_unpack _). by vm_compute.
  - apply Nat.leb_le. by vm_compute.
  - exists a', c, m. split; [exact Hemb|]. split.
    + rewrite Hposs. apply elem_of_app. right. by left.
    + split; [exact Hm|]. split; [exact Hend | exact Hdec].
Defined.

Lemma encode_then_decode_witness :
  ∃ a',
    stego (encode (str "#") "Hill" shuffle_rev entries_plain world_100)
    = Some a'
    ∧ decoded
        (decode (str "#") shuffle_rev entries_plain
           (opened {| pixel := pixel (picture world_100); imagedata := a' |}
              (globals world_100)
              (encode (str "#") "Hill" shuffle_rev entries_plain world_100)))
      = Some (text entries_plain).
Proof.
  destruct (encode_then_decode (str "#") "Hill" shuffle_rev 3 entries_plain
              world_100 plain_cipher) as (a' & Hstego & _ & Hdec & _).
  - intros s l. unfold shuffle_rev. symmetry. apply reverse_Permutation.
  - apply (bool_decide_unpack _). by vm_compute.
  - reflexivity.
  - apply (bool_decide_unpack _). by vm_compute.
  - reflexivity.
  - reflexivity.
  - reflexivity.
  - reflexivity.
  - apply (bool_decide_unpack _). by vm_compute.
  - apply (bool_decide_unpack _). by vm_compute.
  - by vm_compute.
  - by vm_compute.
  - reflexivity.
  - exists a'. split; [exact Hstego | exact Hdec].
Defined.

Lemma embed_idempotent_witness :
  embed stego_4 [(0, 3); (2, 8)] (seq 0 4) (to_bits (str "HI#"))
  = Some stego_4.
Proof.
  apply (embed_idempotent 3 picture_4).
  - apply (bool_decide_unpack _). by vm_compute.
  - apply (bool_decide_unpack _). by vm_compute.
  - apply (bool_decide_unpack _). by vm_compute.
  - by vm_compute.
Defined.

Lemma index_error_behaviour_witness :
  is_Some (embed picture_4 [(0, 3); (2, 8)] (seq 0 4) (to_bits (str "HI#")))
  ∧ embed picture_4 [(3, 1)] [0] [true] = None
  ∧ extract (str "#") picture_4 [(3, 1)] [0] = None.
Proof.
  destruct (index_error_behaviour (str "#") 3 picture_4) as [Hin Hout].
  - apply (bool_decide_unpack _). by vm_compute.
  - destruct (Hin [(0, 3); (2, 8)] (seq 0 4) (to_bits (str "HI#")))
      as [Hemb _].
    + apply (bool_decide_unpack _). by vm_compute.
    + apply (bool_decide_unpack _). by vm_compute.
    + destruct (Hout 3 1 [] 0 [] [true]) as [Hnone Hext].
      * apply Nat.leb_le. by vm_compute.
      * apply Nat.ltb_lt. by vm_compute.
      * done.
      * split_and!; [exact Hemb | exact Hnone | by apply Hext].
Defined.

Lemma window_fits_screen_witness :
  let '(W, H, X, Y) := window_geometry 1920 1080 in
  (W = Z.min 1920 1000 ∧ H = Z.min 1080 550
   ∧ 0 ≤ X ∧ X + W ≤ 1920 ∧ 0 ≤ Y ∧ Y + H ≤ 1080
   ∧ Z.abs (1920 - W - X - X) ≤ 1
   ∧ Z.abs (1080 - H - Y - Y) ≤ 1)%Z.
Proof. apply (window_fits_screen 1920 1080); lia. Defined.

Lemma open_event_prepares_encode_witness :
  let w' := (open_event (str "#") 100 picture_100 gui_long world_4).1 in
  let g' := (open_event (str "#") 100 picture_100 gui_long world_4).2 in
  picture w' = {| pixel := 100; imagedata := picture_100 |}
  ∧ (1 ≤ ch_limit (globals w'))%Z
  ∧ (Z.of_nat (length (g_message g')) ≤ ch_limit (globals w'))%Z.
Proof.
  destruct (open_event_prepares_encode (str "#") 100 picture_100 gui_long
              world_4) as (Hpic & _ & _ & Hlimit & _ & Hfits & _).
  - vm_compute. by eexists.
  - reflexivity.
  - apply (bool_decide_unpack _). by vm_compute.
  - apply (bool_decide_unpack _). by vm_compute.
  - split_and!; [exact Hpic | exact Hlimit | exact Hfits].
Defined.

Lemma encode_warns_on_plaintext_only_witness :
  ∃ a',
    shown (encode (str "#") "Hill" shuffle_rev entries_shift world_100)
    = shown world_100 ++ [InfoEncoded]
    ∧ stego (encode (str "#") "Hill" shuffle_rev entries_shift world_100)
      = Some a'
    ∧ decoded
        (decode (str "#") shuffle_rev entries_shift
           (opened {| pixel := pixel (picture world_100); imagedata := a' |}
              (globals world_100)
              (encode (str "#") "Hill" shuffle_rev entries_shift world_100)))
      = Some (decrypt shift_cipher [73%N]).
Proof.
  destruct (encode_warns_on_plaintext_only (str "#") "Hill" shuffle_rev 3
              entries_shift world_100 shift_cipher)
    as (a' & x & rest & Hshown & Hstego & _ & _ & Hcut & Hdec & _).
  - intros s l. unfold shuffle_rev. symmetry. apply reverse_Permutation.
  - apply (bool_decide_unpack _). by vm_compute.
  - reflexivity.
  - apply (bool_decide_unpack _). by vm_compute.
  - reflexivity.
  - reflexivity.
  - reflexivity.
  - reflexivity.
  - apply (bool_decide_unpack _). by vm_compute.
  - by vm_compute.
  - apply (bool_decide_unpack _). by vm_compute.
  - by vm_compute.
  - assert (x = [73%N]) as Hx.
    { destruct Hcut as [lost Hlost]; [by vm_compute|].
      clear -Hlost. vm_compute in Hlost.
      destruct x as [|c [|c' [|c'' x]]]; simpl in Hlost; try congruence.
      injection Hlost as _ _ Hnil. by destruct x. }
    rewrite Hx in Hdec. exists a'.
    split_and!; [exact Hshown | exact Hstego | exact Hdec].
Defined.

